(** * A shallow embedding of the [StateMachine] engine of [include/fsm.hpp]

    The engine is a class template [StateMachine<T, Args...>].  States live on
    the heap behind [std::shared_ptr<State>]; every such pointer held by the
    machine (the registry [states], [current_state], a transition's [to], a
    cache's [target]) was obtained from the registry, and entries of the
    registry are never replaced or removed.  The embedding therefore uses the
    registry itself as the arena: a pointer to a state is the key of that
    state, and pointer equality is key equality.

    Guards are [std::function<bool(uint32_t, Args...)>] and callbacks are
    [std::function<void(uint32_t)>]: arbitrary closures of the caller.  They
    are modelled as functions over a caller-owned world [W] which does not
    contain the machine (closures do not re-enter the machine).  Every
    operation additionally emits the list of guard evaluations and callback
    invocations it made, in order.  The embedding is sequential: the mutex
    around the cache slot is not modelled. *)

From stdpp Require Import gmap list option strings.
From Stdlib Require QArith.

Set Default Proof Using "Type*".

Section fsm.

Context {T : Type} `{Countable T}.
Context {Args W : Type}.

(** ** Data model *)

(** [uint32_t]: the engine only stores and forwards it. *)
Definition uint32_t : Type := N.

(** [std::function<bool(uint32_t, Args...)>] *)
Definition Guard : Type := uint32_t → Args → W → bool * W.

(** [std::function<void(uint32_t)>]; an empty function object is [None]. *)
Definition Callback : Type := uint32_t → W → W.

Record Transition : Type := mkTransition {
  to : T;
  condition : Guard;
}.

Record TransitionCache : Type := mkTransitionCache {
  target : T;
  transition_idx : nat;
}.

Record State : Type := mkState {
  name : T;
  entity_id : uint32_t;
  transitions : list Transition;
  on_enter : option Callback;
  on_exit : option Callback;
  cache : option TransitionCache;
}.

Record StateMachine : Type := mkStateMachine {
  states : gmap T State;
  current_state : option T;
}.

(** What an observer of one call sees: each guard evaluation (the state that
    owns the transition, its index, the arguments passed and the result) and
    each callback invocation (the state whose hook runs, the entity id passed
    and the machine's [current_state] at that moment). *)
Inductive Event : Type :=
  | EvGuard (owner : T) (idx : nat) (eid : uint32_t) (args : Args) (res : bool)
  | EvExit (s : T) (eid : uint32_t) (cur : option T)
  | EvEnter (s : T) (eid : uint32_t) (cur : option T).

Definition is_guard (e : Event) : bool :=
  match e with EvGuard _ _ _ _ _ => true | _ => false end.

Definition is_callback (e : Event) : bool :=
  match e with EvGuard _ _ _ _ _ => false | _ => true end.

(** ** The monad of the engine's operations

    An operation reads and writes the machine and the world, emits events and
    may fail: a failed [assert], a null or dangling pointer dereference or an
    out-of-range [operator[]] is [None]. *)
Definition M (A : Type) : Type :=
  StateMachine → W → option (A * StateMachine * W * list Event).

Definition ret {A} (a : A) : M A := λ m w, Some (a, m, w, []).

Definition bind {A B} (c : M A) (k : A → M B) : M B := λ m w,
  match c m w with
  | None => None
  | Some (a, m1, w1, tr1) =>
      match k a m1 w1 with
      | None => None
      | Some (b, m2, w2, tr2) => Some (b, m2, w2, tr1 ++ tr2)
      end
  end.

Definition fail {A} : M A := λ _ _, None.

Definition get_machine : M StateMachine := λ m w, Some (m, m, w, []).

Definition put_machine (m' : StateMachine) : M unit := λ _ w, Some (tt, m', w, []).

Definition assert (b : bool) : M unit := if b then ret tt else fail.

#[global] Instance M_ret : MRet M := @ret.
#[global] Instance M_bind : MBind M := λ A B k c, bind c k.

(** [*p] for a [shared_ptr<State>] [p]. *)
Definition deref (p : T) : M State := λ m w,
  match states m !! p with
  | Some s => Some (s, m, w, [])
  | None => None
  end.

(** Assignment through a pointer to a state. *)
Definition store (p : T) (s : State) : M unit := λ m w,
  Some (tt, mkStateMachine (<[p := s]> (states m)) (current_state m), w, []).

(** [assert(current_state)] followed by reading the pointer. *)
Definition deref_current : M T := λ m w,
  match current_state m with
  | Some p => Some (p, m, w, [])
  | None => None
  end.

(** ** [Transition] *)

Definition Transition_get_target (t : Transition) : T := to t.

(** [owner] and [idx] only label the emitted event. *)
Definition Transition_check_condition (owner : T) (idx : nat) (t : Transition)
    (eid : uint32_t) (args : Args) : M bool := λ m w,
  let '(b, w') := condition t eid args w in
  Some (b, m, w', [EvGuard owner idx eid args b]).

(** ** [TransitionCache] *)

(** [state->transitions[transition_idx]->check_condition(entity_id, args...)];
    indexing a [std::vector] out of range is undefined behaviour. *)
Definition TransitionCache_try_transition (c : TransitionCache) (p : T) (s : State)
    (eid : uint32_t) (args : Args) : M bool :=
  match transitions s !! transition_idx c with
  | Some t => Transition_check_condition p (transition_idx c) t eid args
  | None => fail
  end.

Definition TransitionCache_get_target (c : TransitionCache) : T := target c.

(** ** [State] *)

Definition new_State (n : T) (eid : uint32_t) : State :=
  mkState n eid [] None None None.

Definition set_cache (s : State) (c : option TransitionCache) : State :=
  mkState (name s) (entity_id s) (transitions s) (on_enter s) (on_exit s) c.

Definition State_add_transition (p : T) (t : Transition) : M unit :=
  s ← deref p;
  store p (mkState (name s) (entity_id s) (transitions s ++ [t])
                   (on_enter s) (on_exit s) (cache s)).

Definition State_try_cached_transition (p : T) (eid : uint32_t) (args : Args) : M bool :=
  s ← deref p;
  hit ← match cache s with
         | Some c => TransitionCache_try_transition c p s eid args
         | None => ret false
         end;
  if hit : bool then ret true
  else (store p (set_cache s None);; ret false).

Definition State_update_cache (p : T) (idx : nat) (tgt : T) : M unit :=
  s ← deref p;
  store p (set_cache s (Some (mkTransitionCache tgt idx))).

Definition State_set_callbacks (p : T) (enter exit : option Callback) : M unit :=
  s ← deref p;
  store p (mkState (name s) (entity_id s) (transitions s)
                   (match enter with Some _ => enter | None => on_enter s end)
                   (match exit with Some _ => exit | None => on_exit s end)
                   (cache s)).

(** Invoking a callback [f(eid)]; [ev] labels the emitted event with the
    machine's [current_state] at the time of the call. *)
Definition invoke (f : Callback) (eid : uint32_t) (ev : option T → Event) : M unit :=
  λ m w, Some (tt, m, f eid w, [ev (current_state m)]).

Definition State_enter (p : T) : M unit :=
  s ← deref p;
  match on_enter s with
  | Some f => invoke f (entity_id s) (EvEnter (name s) (entity_id s))
  | None => ret tt
  end.

Definition State_exit (p : T) : M unit :=
  s ← deref p;
  match on_exit s with
  | Some f => invoke f (entity_id s) (EvExit (name s) (entity_id s))
  | None => ret tt
  end.

(** ** [StateMachine] *)

Definition empty_machine : StateMachine := mkStateMachine ∅ None.

Definition handle_transition (new_state : T) : M unit :=
  cur ← deref_current;
  State_exit cur;;
  m ← get_machine;
  put_machine (mkStateMachine (states m) (Some new_state));;
  State_enter new_state.

Definition contains (n : T) : M bool := λ m w,
  Some (bool_decide (is_Some (states m !! n)), m, w, []).

(** Returns the pointer to the state, that is its key. *)
Definition add_state (n : T) (eid : uint32_t) : M T :=
  present ← contains n;
  if present : bool then ret n
  else
    store n (new_State n eid);;
    m ← get_machine;
    match current_state m with
    | Some _ => ret tt
    | None => put_machine (mkStateMachine (states m) (Some n))
    end;;
    ret n.

Definition add_transition (from to_ : T) (cond : Guard) : M unit :=
  b1 ← contains from;
  b2 ← (if b1 : bool then contains to_ else ret false);
  assert b2;;
  State_add_transition from (mkTransition to_ cond).

Definition set_callback (st : T) (enter exit : option Callback) : M unit :=
  b ← contains st;
  assert b;;
  State_set_callbacks st enter exit.

Definition start : M unit :=
  cur ← deref_current;
  State_enter cur.

(** The [for] loop of [update], from index [i] over the remaining
    transitions [ts].  [current_state] is not reassigned before the [break],
    so [cur] and its entity id are the same in every iteration. *)
Fixpoint update_scan (cur : T) (eid : uint32_t) (args : Args)
    (i : nat) (ts : list Transition) : M unit :=
  match ts with
  | [] => ret tt
  | t :: ts' =>
      b ← Transition_check_condition cur i t eid args;
      if b : bool then
        let tgt := Transition_get_target t in
        State_update_cache cur i tgt;;
        handle_transition tgt
      else update_scan cur eid args (S i) ts'
  end.

Definition update (args : Args) : M unit :=
  cur ← deref_current;
  s ← deref cur;
  hit ← State_try_cached_transition cur (entity_id s) args;
  if hit : bool then
    s' ← deref cur;
    match cache s' with
    | Some c => handle_transition (TransitionCache_get_target c)
    | None => fail
    end
  else update_scan cur (entity_id s) args 0 (transitions s).

Definition get_current_state : M T :=
  cur ← deref_current;
  s ← deref cur;
  ret (name s).

(** The [for] loop of [can_transition_to]; [&&] does not evaluate the guard
    of a transition whose target is not the queried one. *)
Fixpoint can_scan (cur : T) (eid : uint32_t) (tgt : T) (args : Args)
    (i : nat) (ts : list Transition) : M bool :=
  match ts with
  | [] => ret false
  | t :: ts' =>
      b ← (if bool_decide (Transition_get_target t = tgt)
            then Transition_check_condition cur i t eid args
            else ret false);
      if b : bool then
        State_update_cache cur i tgt;;
        ret true
      else can_scan cur eid tgt args (S i) ts'
  end.

Definition can_transition_to (st : T) (args : Args) : M bool :=
  cur ← deref_current;
  b ← contains st;
  assert b;;
  s ← deref cur;
  hit ← State_try_cached_transition cur (entity_id s) args;
  if hit : bool then
    s' ← deref cur;
    match cache s' with
    | Some c => ret (bool_decide (TransitionCache_get_target c = st))
    | None => fail
    end
  else can_scan cur (entity_id s) st args 0 (transitions s).

Definition has_state (st : T) : M bool := contains st.

(** ** The operations a caller can issue, and the machines they reach *)

Inductive Op : Type :=
  | OpAddState (n : T) (eid : uint32_t)
  | OpAddTransition (from to_ : T) (cond : Guard)
  | OpSetCallback (st : T) (enter exit : option Callback)
  | OpStart
  | OpUpdate (args : Args)
  | OpGetCurrentState
  | OpCanTransitionTo (st : T) (args : Args)
  | OpHasState (st : T).

Definition run_op (o : Op) : M unit :=
  match o with
  | OpAddState n eid => add_state n eid;; ret tt
  | OpAddTransition from to_ cond => add_transition from to_ cond
  | OpSetCallback st enter exit => set_callback st enter exit
  | OpStart => start
  | OpUpdate args => update args
  | OpGetCurrentState => get_current_state;; ret tt
  | OpCanTransitionTo st args => can_transition_to st args;; ret tt
  | OpHasState st => has_state st;; ret tt
  end.

(** A machine is reachable when a caller obtains it from the default
    constructed machine by operations none of which aborts; between two
    operations the caller may change the world at will. *)
Inductive reachable : StateMachine → Prop :=
  | reachable_empty : reachable empty_machine
  | reachable_step m o w u m' w' tr :
      reachable m → run_op o m w = Some (u, m', w', tr) → reachable m'.

(** ** Derived descriptions used in the statements *)

Definition with_cache (m : StateMachine) (p : T) (s : State)
    (c : option TransitionCache) : StateMachine :=
  mkStateMachine (<[p := set_cache s c]> (states m)) (current_state m).

Definition with_current (m : StateMachine) (p : T) : StateMachine :=
  mkStateMachine (states m) (Some p).

Definition exit_world (s : State) (w : W) : W :=
  match on_exit s with Some f => f (entity_id s) w | None => w end.

Definition enter_world (s : State) (w : W) : W :=
  match on_enter s with Some f => f (entity_id s) w | None => w end.

Definition exit_events (s : State) (cur : option T) : list Event :=
  match on_exit s with
  | Some _ => [EvExit (name s) (entity_id s) cur]
  | None => []
  end.

Definition enter_events (s : State) (cur : option T) : list Event :=
  match on_enter s with
  | Some _ => [EvEnter (name s) (entity_id s) cur]
  | None => []
  end.

Definition prefix_trace {A} (evs : list Event)
    (r : option (A * StateMachine * W * list Event)) :
    option (A * StateMachine * W * list Event) :=
  match r with
  | Some (a, m, w, tr) => Some (a, m, w, evs ++ tr)
  | None => None
  end.

(** The guard evaluations of a scan, without the machine: transitions that
    [sel] rejects are passed over unevaluated; the result is the first
    selected transition whose guard returns true, with its index. *)
Fixpoint scan_guards (sel : Transition → bool) (cur : T) (eid : uint32_t)
    (args : Args) (i : nat) (ts : list Transition) (w : W) :
    option (nat * Transition) * W * list Event :=
  match ts with
  | [] => (None, w, [])
  | t :: ts' =>
      if sel t then
        let '(b, w1) := condition t eid args w in
        if b : bool then (Some (i, t), w1, [EvGuard cur i eid args true])
        else
          let '(r, w2, tr) := scan_guards sel cur eid args (S i) ts' w1 in
          (r, w2, EvGuard cur i eid args false :: tr)
      else scan_guards sel cur eid args (S i) ts' w
  end.

Definition any_target : Transition → bool := λ _, true.

Definition targets (tgt : T) : Transition → bool :=
  λ t, bool_decide (to t = tgt).

(** A guard whose answer does not depend on the world. *)
Definition deterministic (g : Guard) : Prop :=
  ∀ eid args w w', (g eid args w).1 = (g eid args w').1.

(** The consistency of one state's cache slot. *)
Definition cache_consistent (s : State) : Prop :=
  ∀ c, cache s = Some c →
    ∃ t, transitions s !! transition_idx c = Some t ∧ to t = target c.

(** The structural invariant of the machine. *)
Record wf (m : StateMachine) : Prop := mk_wf {
  wf_name : ∀ k s, states m !! k = Some s → name s = k;
  wf_current : ∀ k, current_state m = Some k → is_Some (states m !! k);
  wf_first : current_state m = None → states m = ∅;
  wf_targets : ∀ k s t, states m !! k = Some s → t ∈ transitions s →
    is_Some (states m !! to t);
  wf_cache : ∀ k s, states m !! k = Some s → cache_consistent s;
}.

(** The cache probe of [State::try_cached_transition], without the machine:
    the answer, the world afterwards and the guard evaluation made, if any. *)
Definition probe (p : T) (s : State) (eid : uint32_t) (args : Args) (w : W) :
    option (bool * W * list Event) :=
  match cache s with
  | None => Some (false, w, [])
  | Some c =>
      match transitions s !! transition_idx c with
      | Some t =>
          let '(b, w1) := condition t eid args w in
          Some (b, w1, [EvGuard p (transition_idx c) eid args b])
      | None => None
      end
  end.

(** The event of a guard of state [a] evaluated on [args] to false. *)
Definition failed_guard (a : T) (eid : uint32_t) (args : Args) (e : Event) : Prop :=
  ∃ i, e = EvGuard a i eid args false.

(** No guard evaluation recorded in [tr] returned true. *)
Definition no_guard_matches (tr : list Event) : Prop :=
  ∀ o i eid args, EvGuard o i eid args true ∉ tr.

(** [t]'s guard answers [b] on [args] whatever the world. *)
Definition evaluates (b : bool) (t : Transition) (eid : uint32_t) (args : Args) : Prop :=
  ∀ w, (condition t eid args w).1 = b.

(** What the cache probe followed, on a miss, by a scan discovers: the
    transition found (as the cache entry that describes it), the world after
    the guard evaluations and these evaluations.  [update] scans with
    [any_target], [can_transition_to] with [targets st]. *)
Definition discover (sel : Transition → bool) (a : T) (sa : State)
    (args : Args) (w : W) : option (option TransitionCache * W * list Event) :=
  match probe a sa (entity_id sa) args w with
  | Some (true, w1, tr) =>
      match cache sa with
      | Some c => Some (Some c, w1, tr)
      | None => None
      end
  | Some (false, w1, tr) =>
      let '(r, w2, tr2) :=
        scan_guards sel a (entity_id sa) args 0 (transitions sa) w1 in
      Some (match r with
            | Some (j, t) => Some (mkTransitionCache (to t) j)
            | None => None
            end, w2, tr ++ tr2)
  | None => None
  end.

Definition guards_of (tr : list Event) : list Event := List.filter is_guard tr.

Definition callbacks_of (tr : list Event) : list Event := List.filter is_callback tr.

(** The value an operation returns, if it returns. *)
Definition result_of {A} (r : option (A * StateMachine * W * list Event)) : option A :=
  (λ x, x.1.1.1) <$> r.

(** A sequence of operations, each started in the world the previous one left. *)
Fixpoint run_ops (os : list Op) : M unit :=
  match os with
  | [] => ret tt
  | o :: os' => run_op o;; run_ops os'
  end.

(** ** Three properties as the specification words them

    They are stated for one machine [m], world [w] and arguments, so that
    they can be evaluated on a given input. *)

(** First-match priority on every [update] call: when the guards of the
    transitions at [i < j] of the current state both evaluate true and no
    transition before [i] matches, [update] moves to the target of [i]. *)
Definition first_match_priority (m : StateMachine) (w : W) (args : Args) : Prop :=
  ∀ a sa i j ti tj,
    current_state m = Some a → states m !! a = Some sa →
    i < j → transitions sa !! i = Some ti → transitions sa !! j = Some tj →
    evaluates true ti (entity_id sa) args →
    evaluates true tj (entity_id sa) args →
    (∀ k tk, k < i → transitions sa !! k = Some tk →
       evaluates false tk (entity_id sa) args) →
    ∃ m' w' tr, update args m w = Some (tt, m', w', tr) ∧
                current_state m' = Some (to ti).

(** Cache soundness: when [update args] misses the cache and its full scan
    takes transition [i] of the current state [a], the next [update args']
    with [args'] satisfying guard [i] evaluates that guard only and moves to
    the same target. *)
Definition cache_hit_after_scan (m : StateMachine) (w : W) (args args' : Args) : Prop :=
  ∀ a sa i t m0 w0 tr0 m1 w1 tr1,
    current_state m = Some a → states m !! a = Some sa →
    transitions sa !! i = Some t →
    State_try_cached_transition a (entity_id sa) args m w = Some (false, m0, w0, tr0) →
    update args m w = Some (tt, m1, w1, tr1) →
    EvGuard a i (entity_id sa) args true ∈ tr1 →
    (condition t (entity_id sa) args' w1).1 = true →
    ∃ m2 w2 tr2, update args' m1 w1 = Some (tt, m2, w2, tr2) ∧
                 guards_of tr2 = [EvGuard a i (entity_id sa) args' true] ∧
                 current_state m2 = Some (to t).


(** ** How operations relate a state before to the state after *)

(** [s'] is [s] with, at most, transitions appended, hooks set or replaced
    and another content of the cache slot. *)
Definition State_extends (s s' : State) : Prop :=
  name s' = name s ∧ entity_id s' = entity_id s ∧
  transitions s `prefix_of` transitions s' ∧
  (is_Some (on_enter s) → is_Some (on_enter s')) ∧
  (is_Some (on_exit s) → is_Some (on_exit s')).

Definition is_update (o : Op) : bool :=
  match o with OpUpdate _ => true | _ => false end.

(** The operations that call neither a guard nor a callback. *)
Definition is_silent (o : Op) : bool :=
  match o with
  | OpStart | OpUpdate _ | OpCanTransitionTo _ _ => false
  | _ => true
  end.

End fsm.

(** * The program of [main.cpp] and a variant of it

    [PlayerState] is the [enum class] of [main]; [Args...] is one [float], the
    speed.  The speeds and thresholds are the decimal literals of the program
    as rationals (their comparisons agree with those of the [float] values);
    the world is the text written to [std::cout], one entry per line, without
    the formatted speed. *)

Inductive PlayerState : Type := IDLE | WALKING | RUNNING.

#[global] Instance PlayerState_eq_dec : EqDecision PlayerState.
Proof. solve_decision. Defined.

Definition PlayerState_to_nat (s : PlayerState) : nat :=
  match s with IDLE => 0 | WALKING => 1 | RUNNING => 2 end.

Definition PlayerState_of_nat (n : nat) : PlayerState :=
  match n with 0 => IDLE | 1 => WALKING | _ => RUNNING end.

#[global] Instance PlayerState_countable : Countable PlayerState.
Proof.
  refine (inj_countable' PlayerState_to_nat PlayerState_of_nat _). by intros [].
Defined.

Definition Speed : Type := QArith_base.Q.

Definition Stdout : Type := list string.

(** [[](uint32_t id, float speed) { std::cout << line; return speed > limit; }] *)
Definition faster_than (limit : Speed) (line : string) :
    @Guard Speed Stdout :=
  λ _ speed out, (negb (QArith_base.Qle_bool speed limit), out ++ [line]).

(** [[](uint32_t id) { std::cout << line; }] *)
Definition print (line : string) : @Callback Stdout :=
  λ _ out, out ++ [line].

Definition speed_0_1 : Speed := QArith_base.Qmake 1 10.
Definition speed_0_2 : Speed := QArith_base.Qmake 2 10.
Definition speed_5_0 : Speed := QArith_base.Qmake 5 1.
Definition speed_6_0 : Speed := QArith_base.Qmake 6 1.

Definition idle_to_walking : @Guard Speed Stdout :=
  faster_than speed_0_1 "Checking IDLE->WALKING".

Definition walking_to_running : @Guard Speed Stdout :=
  faster_than speed_5_0 "Checking WALKING->RUNNING".

Definition idle_to_running : @Guard Speed Stdout :=
  faster_than speed_5_0 "Checking IDLE->RUNNING".

Definition keeps_walking : @Guard Speed Stdout :=
  faster_than speed_0_1 "Checking WALKING->WALKING".

(** The graph construction of [main]. *)
Definition main_setup : list (@Op PlayerState Speed Stdout) :=
  [ OpAddState IDLE 1%N; OpAddState WALKING 1%N; OpAddState RUNNING 1%N;
    OpAddTransition IDLE WALKING idle_to_walking;
    OpAddTransition WALKING RUNNING walking_to_running;
    OpSetCallback WALKING (Some (print "Entered WALKING"))
                          (Some (print "Exited WALKING state"));
    OpSetCallback RUNNING (Some (print "Entered RUNNING state"))
                          (Some (print "Exited RUNNING state")) ].

Definition main_idle : @State PlayerState Speed Stdout :=
  mkState IDLE 1%N [mkTransition WALKING idle_to_walking] None None None.

Definition main_walking : @State PlayerState Speed Stdout :=
  mkState WALKING 1%N [mkTransition RUNNING walking_to_running]
    (Some (print "Entered WALKING")) (Some (print "Exited WALKING state")) None.

Definition main_running : @State PlayerState Speed Stdout :=
  mkState RUNNING 1%N []
    (Some (print "Entered RUNNING state")) (Some (print "Exited RUNNING state")) None.

(** The machine [main] has built when it calls [start]. *)
Definition main_machine : @StateMachine PlayerState _ _ Speed Stdout :=
  mkStateMachine
    (<[IDLE := main_idle]> (<[WALKING := main_walking]> (<[RUNNING := main_running]> ∅)))
    (Some IDLE).

(** The machine of [main] after its first [update(0.2f)]. *)
Definition main_machine_walking : @StateMachine PlayerState _ _ Speed Stdout :=
  with_current
    (with_cache main_machine IDLE main_idle (Some (mkTransitionCache WALKING 0)))
    WALKING.

(** The machine of [main] after its last [update(6.0f)]. *)
Definition main_machine_running : @StateMachine PlayerState _ _ Speed Stdout :=
  with_current
    (with_cache main_machine_walking WALKING main_walking
       (Some (mkTransitionCache RUNNING 0)))
    RUNNING.

(** The machine of [main] with a second transition out of [IDLE], added
    last. *)
Definition main_machine_more : @StateMachine PlayerState _ _ Speed Stdout :=
  mkStateMachine
    (<[IDLE := mkState IDLE 1%N
                 [mkTransition WALKING idle_to_walking;
                  mkTransition RUNNING idle_to_running] None None None]>
       (states main_machine))
    (Some IDLE).

(** A variant with two transitions out of [IDLE]: to [WALKING] above 0.1
    (added first) and to [RUNNING] above 5.0; and with a transition from
    [WALKING] to itself. *)
Definition variant_setup : list (@Op PlayerState Speed Stdout) :=
  [ OpAddState IDLE 1%N; OpAddState WALKING 2%N; OpAddState RUNNING 3%N;
    OpAddTransition IDLE WALKING idle_to_walking;
    OpAddTransition IDLE RUNNING idle_to_running;
    OpAddTransition WALKING WALKING keeps_walking;
    OpSetCallback WALKING (Some (print "Entered WALKING"))
                          (Some (print "Exited WALKING state")) ].

Definition variant_idle : @State PlayerState Speed Stdout :=
  mkState IDLE 1%N
    [mkTransition WALKING idle_to_walking; mkTransition RUNNING idle_to_running]
    None None None.

Definition variant_walking : @State PlayerState Speed Stdout :=
  mkState WALKING 2%N [mkTransition WALKING keeps_walking]
    (Some (print "Entered WALKING")) (Some (print "Exited WALKING state")) None.

Definition variant_running : @State PlayerState Speed Stdout :=
  mkState RUNNING 3%N [] None None None.

Definition variant_machine : @StateMachine PlayerState _ _ Speed Stdout :=
  mkStateMachine
    (<[IDLE := variant_idle]>
       (<[WALKING := variant_walking]> (<[RUNNING := variant_running]> ∅)))
    (Some IDLE).

(** The variant after [can_transition_to(RUNNING, 6.0f)] has answered true. *)
Definition variant_machine_queried : @StateMachine PlayerState _ _ Speed Stdout :=
  with_cache variant_machine IDLE variant_idle (Some (mkTransitionCache RUNNING 1)).

(** The variant once [update(0.2f)] has moved it to [WALKING]. *)
Definition variant_machine_walking : @StateMachine PlayerState _ _ Speed Stdout :=
  with_current
    (with_cache variant_machine IDLE variant_idle (Some (mkTransitionCache WALKING 0)))
    WALKING.

Section facts.

Context {T : Type} `{Countable T}.
Context {Args W : Type}.

Abbreviation M := (@M T _ _ Args W).
Abbreviation StateMachine := (@StateMachine T _ _ Args W).
Abbreviation State := (@State T Args W).
Abbreviation Transition := (@Transition T Args W).
Abbreviation Event := (@Event T Args).
Abbreviation TransitionCache := (@TransitionCache T).
Abbreviation Result A := (option (A * StateMachine * W * list Event)).

Implicit Types (m : StateMachine) (w : W) (p a b k : T) (s sa sb : State).
Implicit Types (t : Transition) (ts : list Transition) (tr : list Event).
Implicit Types (args : Args) (eid : uint32_t) (c : TransitionCache).

(** * Basic facts about the monad and the primitive steps *)

Lemma bind_Some {A B} (f : M A) (g : A → M B) m w (y : B) m2 w2 tr :
  (f ≫= g) m w = Some (y, m2, w2, tr) ↔
  ∃ (x : A) m1 w1 tr1 tr2, f m w = Some (x, m1, w1, tr1) ∧
    g x m1 w1 = Some (y, m2, w2, tr2) ∧ tr = tr1 ++ tr2.
Proof.
  unfold mbind, M_bind, bind. split.
  - destruct (f m w) as [[[[x m1] w1] tr1]|]; [|done].
    destruct (g x m1 w1) as [[[[y' m2'] w2'] tr2]|] eqn:Hg; [|done].
    intros [= -> -> -> <-]. by exists x, m1, w1, tr1, tr2.
  - intros (x & m1 & w1 & tr1 & tr2 & -> & -> & ->). done.
Qed.

Lemma prefix_trace_nil {A} (r : Result A) :
  prefix_trace [] r = r.
Proof. by destruct r as [[[[??]?]?]|]. Qed.

Lemma prefix_trace_app {A} evs1 evs2 (r : Result A) :
  prefix_trace evs1 (prefix_trace evs2 r) = prefix_trace (evs1 ++ evs2) r.
Proof. destruct r as [[[[??]?]?]|]; [|done]. simpl. by rewrite app_assoc. Qed.

Lemma deref_run p s m w :
  states m !! p = Some s → deref p m w = Some (s, m, w, []).
Proof. intros Hs. unfold deref. by rewrite Hs. Qed.

Lemma deref_current_run p m w :
  current_state m = Some p → deref_current m w = Some (p, m, w, []).
Proof. intros Hc. unfold deref_current. by rewrite Hc. Qed.

Lemma with_cache_same m p s :
  states m !! p = Some s → with_cache m p s (cache s) = m.
Proof.
  intros Hs. unfold with_cache, set_cache. destruct m as [sts cur]; simpl in *.
  f_equal. apply insert_id. rewrite Hs. by destruct s.
Qed.


Lemma bind_unfold {A B} (f : M A) (g : A → M B) m w :
  (f ≫= g) m w =
    match f m w with
    | Some (x, m1, w1, tr1) => prefix_trace tr1 (g x m1 w1)
    | None => None
    end.
Proof. reflexivity. Qed.

(** Run the first command of a sequence with a known outcome. *)
Ltac step E := rewrite bind_unfold, E; cbv beta iota; rewrite ?prefix_trace_nil.

Lemma State_exit_run m w a sa :
  states m !! a = Some sa →
  State_exit a m w =
    Some (tt, m, exit_world sa w, exit_events sa (current_state m)).
Proof.
  intros Ha. unfold State_exit. step (deref_run _ _ m w Ha).
  unfold exit_world, exit_events. by destruct (on_exit sa).
Qed.

Lemma State_enter_run m w b sb :
  states m !! b = Some sb →
  State_enter b m w =
    Some (tt, m, enter_world sb w, enter_events sb (current_state m)).
Proof.
  intros Hb. unfold State_enter. step (deref_run _ _ m w Hb).
  unfold enter_world, enter_events. by destruct (on_enter sb).
Qed.

Lemma handle_transition_run m w a sa b sb :
  current_state m = Some a → states m !! a = Some sa → states m !! b = Some sb →
  handle_transition b m w =
    Some (tt, with_current m b, enter_world sb (exit_world sa w),
          exit_events sa (Some a) ++ enter_events sb (Some b)).
Proof.
  intros Hc Ha Hb. unfold handle_transition.
  step (deref_current_run _ m w Hc).
  step (State_exit_run m w a sa Ha). rewrite Hc.
  rewrite bind_unfold. unfold get_machine. cbv beta iota.
  rewrite prefix_trace_nil, bind_unfold. unfold put_machine. cbv beta iota.
  fold (with_current m b). rewrite prefix_trace_nil.
  by rewrite (State_enter_run (with_current m b) _ b sb Hb).
Qed.

Lemma try_cached_run m w p s eid args :
  states m !! p = Some s →
  State_try_cached_transition p eid args m w =
    match probe p s eid args w with
    | Some (b, w1, tr) =>
        Some (b, if b then m else with_cache m p s None, w1, tr)
    | None => None
    end.
Proof.
  intros Hs. unfold State_try_cached_transition.
  step (deref_run _ _ m w Hs).
  unfold probe, TransitionCache_try_transition, Transition_check_condition.
  rewrite bind_unfold.
  destruct (cache s) as [c|]; simpl.
  - destruct (transitions s !! transition_idx c) as [t|]; [|done].
    destruct (condition t eid args w) as [[] w1]; simpl; [done|].
    done.
  - done.
Qed.

Lemma update_cache_run m w p s i tgt :
  states m !! p = Some s →
  State_update_cache p i tgt m w =
    Some (tt, with_cache m p s (Some (mkTransitionCache tgt i)), w, []).
Proof.
  intros Hs. unfold State_update_cache. by step (deref_run _ _ m w Hs).
Qed.

Lemma with_cache_lookup m p s oc :
  states (with_cache m p s oc) !! p = Some (set_cache s oc).
Proof. unfold with_cache. simpl. apply lookup_insert_eq. Qed.

Lemma with_cache_lookup_ne m p s oc k :
  p ≠ k → states (with_cache m p s oc) !! k = states m !! k.
Proof. intros Hne. unfold with_cache. simpl. by apply lookup_insert_ne. Qed.

Lemma with_cache_twice m p s oc oc' :
  with_cache (with_cache m p s oc) p (set_cache s oc) oc' = with_cache m p s oc'.
Proof. unfold with_cache. simpl. by rewrite insert_insert_eq. Qed.

Lemma update_scan_run m w a sa eid args i ts :
  states m !! a = Some sa →
  update_scan a eid args i ts m w =
    match scan_guards any_target a eid args i ts w with
    | (Some (j, t), w1, tr) =>
        prefix_trace tr
          (handle_transition (to t)
             (with_cache m a sa (Some (mkTransitionCache (to t) j))) w1)
    | (None, w1, tr) => Some (tt, m, w1, tr)
    end.
Proof.
  intros Ha. revert i w. induction ts as [|t ts IH]; intros i w; [done|].
  cbn [update_scan scan_guards any_target]. rewrite bind_unfold.
  unfold Transition_check_condition.
  destruct (condition t eid args w) as [[] w1].
  - rewrite bind_unfold, (update_cache_run m w1 a sa i _ Ha).
    cbv beta iota. by rewrite prefix_trace_nil.
  - rewrite IH.
    destruct (scan_guards any_target a eid args (S i) ts w1) as [[[[j t']|] w2] tr];
      [|done].
    by rewrite prefix_trace_app.
Qed.

Lemma can_scan_run m w a sa eid tgt args i ts :
  states m !! a = Some sa →
  can_scan a eid tgt args i ts m w =
    match scan_guards (targets tgt) a eid args i ts w with
    | (Some (j, t), w1, tr) =>
        Some (true, with_cache m a sa (Some (mkTransitionCache tgt j)), w1, tr)
    | (None, w1, tr) => Some (false, m, w1, tr)
    end.
Proof.
  intros Ha. revert i w. induction ts as [|t ts IH]; intros i w; [done|].
  cbn [can_scan scan_guards]. rewrite bind_unfold.
  unfold targets at 1, Transition_get_target, Transition_check_condition.
  destruct (bool_decide (to t = tgt)).
  - destruct (condition t eid args w) as [[] w1].
    + rewrite bind_unfold, (update_cache_run m w1 a sa i _ Ha). done.
    + rewrite IH.
      by destruct (scan_guards (targets tgt) a eid args (S i) ts w1)
        as [[[[j t']|] w2] tr].
  - cbn. rewrite IH.
    by destruct (scan_guards (targets tgt) a eid args (S i) ts w)
      as [[[[j t']|] w2] tr].
Qed.

Lemma update_run m w a sa args :
  current_state m = Some a → states m !! a = Some sa →
  update args m w =
    match probe a sa (entity_id sa) args w with
    | Some (true, w1, tr) =>
        prefix_trace tr
          match cache sa with
          | Some c => handle_transition (target c) m w1
          | None => None
          end
    | Some (false, w1, tr) =>
        prefix_trace tr
          (update_scan a (entity_id sa) args 0 (transitions sa)
             (with_cache m a sa None) w1)
    | None => None
    end.
Proof.
  intros Hc Ha. unfold update.
  step (deref_current_run _ m w Hc). step (deref_run _ _ m w Ha).
  rewrite bind_unfold, (try_cached_run m w a sa _ _ Ha).
  destruct (probe a sa (entity_id sa) args w) as [[[[] w1] tr]|]; [| |done].
  - f_equal. step (deref_run _ _ m w1 Ha). by destruct (cache sa).
  - done.
Qed.

Lemma can_transition_to_run m w a sa st args :
  current_state m = Some a → states m !! a = Some sa →
  is_Some (states m !! st) →
  can_transition_to st args m w =
    match probe a sa (entity_id sa) args w with
    | Some (true, w1, tr) =>
        match cache sa with
        | Some c => Some (bool_decide (target c = st), m, w1, tr)
        | None => None
        end
    | Some (false, w1, tr) =>
        prefix_trace tr
          (can_scan a (entity_id sa) st args 0 (transitions sa)
             (with_cache m a sa None) w1)
    | None => None
    end.
Proof.
  intros Hc Ha Hst. unfold can_transition_to.
  step (deref_current_run _ m w Hc).
  rewrite bind_unfold. unfold contains. cbv beta iota.
  rewrite (bool_decide_eq_true_2 _ Hst), prefix_trace_nil.
  rewrite bind_unfold. simpl assert. unfold ret at 1. cbv beta iota.
  rewrite prefix_trace_nil.
  step (deref_run _ _ m w Ha).
  rewrite bind_unfold, (try_cached_run m w a sa _ _ Ha).
  destruct (probe a sa (entity_id sa) args w) as [[[[] w1] tr]|]; [| |done].
  - step (deref_run _ _ m w1 Ha). unfold TransitionCache_get_target.
    destruct (cache sa); [|done]. simpl. by rewrite app_nil_r.
  - done.
Qed.

(** * The structural invariant *)

Lemma wf_empty : wf (empty_machine : StateMachine).
Proof.
  split; simpl; try done; intros k s; by rewrite lookup_empty.
Qed.

Lemma wf_with_cache m p s oc :
  wf m → states m !! p = Some s → cache_consistent (set_cache s oc) →
  wf (with_cache m p s oc).
Proof.
  intros [Hn Hc Hf Ht Hk] Hs Hoc. split; unfold with_cache; simpl.
  - intros k s'. rewrite lookup_insert. case_decide; [|by apply Hn].
    intros [= <-]. subst. simpl. by apply Hn.
  - intros k Hk'. rewrite lookup_insert. case_decide; [done|by apply Hc].
  - intros Hnone. apply Hf in Hnone. by rewrite Hnone, lookup_empty in Hs.
  - intros k s' t. rewrite !lookup_insert. intros Hk' Ht'.
    assert (is_Some (states m !! to t)) as Hto.
    { case_decide; [|by eapply Ht]. injection Hk' as <-. subst. by eapply Ht. }
    destruct (decide (p = to t)); [by eexists|done].
  - intros k s'. rewrite lookup_insert. case_decide; [|by apply Hk].
    by intros [= <-].
Qed.

Lemma wf_with_current m b :
  wf m → is_Some (states m !! b) → wf (with_current m b).
Proof.
  intros [Hn Hc Hf Ht Hk] Hb. split; unfold with_current; simpl; try done.
  by intros k [= <-].
Qed.

Lemma cache_consistent_none s : cache_consistent (set_cache s None).
Proof. by intros c. Qed.

Lemma wf_cached_target m k s c :
  wf m → states m !! k = Some s → cache s = Some c →
  is_Some (states m !! target c).
Proof.
  intros Hwf Hs Hc. destruct (wf_cache m Hwf k s Hs c Hc) as (t & Ht & <-).
  eapply wf_targets; [done..|]. by eapply list_elem_of_lookup_2.
Qed.

(** * [update] and [can_transition_to] in terms of [discover] *)

Lemma handle_transition_cached m w a sa oc b sb :
  current_state m = Some a → states m !! a = Some sa → states m !! b = Some sb →
  handle_transition b (with_cache m a sa oc) w =
    Some (tt, with_current (with_cache m a sa oc) b,
          enter_world sb (exit_world sa w),
          exit_events sa (Some a) ++ enter_events sb (Some b)).
Proof.
  intros Hc Ha Hb. destruct (decide (a = b)) as [<-|Hne].
  - assert (sb = sa) as -> by congruence.
    by rewrite (handle_transition_run _ w a (set_cache sa oc) a (set_cache sa oc))
      by (done || apply with_cache_lookup).
  - rewrite (handle_transition_run _ w a (set_cache sa oc) b sb); try done.
    + apply with_cache_lookup.
    + by rewrite with_cache_lookup_ne.
Qed.

Lemma update_discover m w a sa args :
  current_state m = Some a → states m !! a = Some sa →
  update args m w =
    match discover any_target a sa args w with
    | Some (Some c, w1, tr) =>
        prefix_trace tr
          (handle_transition (target c) (with_cache m a sa (Some c)) w1)
    | Some (None, w1, tr) => Some (tt, with_cache m a sa None, w1, tr)
    | None => None
    end.
Proof.
  intros Hc Ha. rewrite (update_run m w a sa args Hc Ha). unfold discover.
  destruct (probe a sa (entity_id sa) args w) as [[[[] w0] tr0]|]; [| |done].
  - destruct (cache sa) as [c|] eqn:Hcache; [|done].
    by rewrite <-Hcache, with_cache_same.
  - rewrite (update_scan_run _ w0 a (set_cache sa None))
      by apply with_cache_lookup.
    destruct (scan_guards any_target a (entity_id sa) args 0 (transitions sa) w0)
      as [[[[j t]|] w2] tr2]; [|done].
    by rewrite with_cache_twice, prefix_trace_app.
Qed.

Lemma update_taken m w a sa args c w1 tr sb :
  current_state m = Some a → states m !! a = Some sa →
  states m !! target c = Some sb →
  discover any_target a sa args w = Some (Some c, w1, tr) →
  update args m w =
    Some (tt, with_current (with_cache m a sa (Some c)) (target c),
          enter_world sb (exit_world sa w1),
          tr ++ exit_events sa (Some a) ++ enter_events sb (Some (target c))).
Proof.
  intros Hc Ha Hb Hd. rewrite (update_discover m w a sa args Hc Ha), Hd.
  by rewrite (handle_transition_cached m w1 a sa _ (target c) sb).
Qed.

Lemma update_stays m w a sa args w1 tr :
  current_state m = Some a → states m !! a = Some sa →
  discover any_target a sa args w = Some (None, w1, tr) →
  update args m w = Some (tt, with_cache m a sa None, w1, tr).
Proof. intros Hc Ha Hd. by rewrite (update_discover m w a sa args Hc Ha), Hd. Qed.

Lemma can_transition_to_discover m w a sa st args :
  current_state m = Some a → states m !! a = Some sa →
  is_Some (states m !! st) →
  can_transition_to st args m w =
    match discover (targets st) a sa args w with
    | Some (Some c, w1, tr) =>
        Some (bool_decide (target c = st), with_cache m a sa (Some c), w1, tr)
    | Some (None, w1, tr) => Some (false, with_cache m a sa None, w1, tr)
    | None => None
    end.
Proof.
  intros Hc Ha Hst. rewrite (can_transition_to_run m w a sa st args Hc Ha Hst).
  unfold discover.
  destruct (probe a sa (entity_id sa) args w) as [[[[] w0] tr0]|]; [| |done].
  - destruct (cache sa) as [c|] eqn:Hcache; [|done].
    by rewrite <-Hcache, with_cache_same.
  - rewrite (can_scan_run _ w0 a (set_cache sa None))
      by apply with_cache_lookup.
    destruct (scan_guards (targets st) a (entity_id sa) args 0 (transitions sa) w0)
      as [[[[j t]|] w2] tr2] eqn:Hscan; simpl; [|done].
    rewrite with_cache_twice.
    assert (to t = st) as ->; [|by rewrite bool_decide_eq_true_2].
    clear -Hscan. revert Hscan. generalize 0 w0 tr2.
    induction (transitions sa) as [|t' ts IH]; intros i w tr; [done|].
    cbn [scan_guards]. unfold targets at 1. case_bool_decide as Hto; [|by apply IH].
    destruct (condition t' (entity_id sa) args w) as [[] w1].
    + by intros [= _ <- _ _].
    + destruct (scan_guards (targets st) a (entity_id sa) args (S i) ts w1)
        as [[r w3] tr3] eqn:Hrec. intros [= -> -> <-]. by eapply IH.
Qed.

(** * Facts about scans *)

Lemma scan_guards_found sel a eid args ts i w j t w1 tr :
  scan_guards sel a eid args i ts w = (Some (j, t), w1, tr) →
  i ≤ j ∧ ts !! (j - i) = Some t ∧ sel t = true ∧
  (∃ w0, condition t eid args w0 = (true, w1)) ∧
  ∃ pre, tr = pre ++ [EvGuard a j eid args true] ∧
         Forall (failed_guard a eid args) pre.
Proof.
  revert i w tr. induction ts as [|t' ts IH]; intros i w tr; [done|].
  cbn [scan_guards]. destruct (sel t') eqn:Hsel.
  - destruct (condition t' eid args w) as [[] w'] eqn:Hcond.
    + intros [= <- <- <- <-]. rewrite Nat.sub_diag. repeat split; try done.
      * by exists w.
      * by exists [].
    + destruct (scan_guards sel a eid args (S i) ts w') as [[r w2] tr2] eqn:Hrec.
      intros [= -> -> <-].
      destruct (IH _ _ _ Hrec) as (Hle & Hlk & Hs & Hw & pre & -> & Hpre).
      repeat split; try done; [lia| |].
      * by replace (j - i) with (S (j - S i)) by lia.
      * exists (EvGuard a i eid args false :: pre). split; [done|].
        constructor; [by exists i|done].
  - intros Hrec. destruct (IH _ _ _ Hrec) as (Hle & Hlk & Hs & Hw & Hpre).
    repeat split; try done; [lia|].
    by replace (j - i) with (S (j - S i)) by lia.
Qed.

Lemma scan_guards_none sel a eid args ts i w w1 tr :
  scan_guards sel a eid args i ts w = (None, w1, tr) →
  Forall (failed_guard a eid args) tr.
Proof.
  revert i w tr. induction ts as [|t' ts IH]; intros i w tr.
  - by intros [= <- <-].
  - cbn [scan_guards]. destruct (sel t'); [|by apply IH].
    destruct (condition t' eid args w) as [[] w'] eqn:Hcond; [done|].
    destruct (scan_guards sel a eid args (S i) ts w') as [[r w2] tr2] eqn:Hrec.
    intros [= -> -> <-]. constructor; [by exists i|by eapply IH].
Qed.

Lemma scan_guards_first sel a eid args ts i0 t0 i w :
  ts !! i0 = Some t0 → sel t0 = true → evaluates true t0 eid args →
  (∀ j tj, j < i0 → ts !! j = Some tj → sel tj = true →
     evaluates false tj eid args) →
  ∃ w1 tr, scan_guards sel a eid args i ts w = (Some (i + i0, t0), w1, tr).
Proof.
  revert i0 i w. induction ts as [|t' ts IH]; intros i0 i w Hlk Hsel Ht0 Hlt; [done|].
  cbn [scan_guards]. destruct i0 as [|i0]; simpl in Hlk.
  - injection Hlk as ->. rewrite Hsel. specialize (Ht0 w).
    destruct (condition t0 eid args w) as [b w']. simpl in Ht0. subst b.
    rewrite Nat.add_0_r. by eexists _, _.
  - assert (∃ w', scan_guards sel a eid args i (t' :: ts) w =
        let '(r, w2, tr) := scan_guards sel a eid args (S i) ts w' in
        (r, w2, (if sel t' then [EvGuard a i eid args false] else []) ++ tr))
      as [w' Hstep].
    { cbn [scan_guards]. destruct (sel t') eqn:Hsel'.
      - pose proof (Hlt 0 t' ltac:(lia) eq_refl Hsel' w) as Hf.
        destruct (condition t' eid args w) as [b w']. simpl in Hf. subst b.
        exists w'. by destruct (scan_guards sel a eid args (S i) ts w') as [[??]?].
      - exists w. by destruct (scan_guards sel a eid args (S i) ts w) as [[??]?]. }
    cbn [scan_guards] in Hstep. rewrite Hstep.
    destruct (IH i0 (S i) w' Hlk Hsel Ht0) as (w1 & tr & ->).
    { intros j tj Hj Hlkj. apply (Hlt (S j) tj); [lia|done]. }
    replace (i + S i0) with (S i + i0) by lia. by eexists _, _.
Qed.

(** * When the operations abort *)

Lemma update_Some_inv m w args (r : unit * StateMachine * W * list Event) :
  update args m w = Some r →
  ∃ a sa, current_state m = Some a ∧ states m !! a = Some sa.
Proof.
  unfold update. rewrite bind_unfold. unfold deref_current.
  destruct (current_state m) as [a|] eqn:Hc; [|done]. rewrite prefix_trace_nil.
  rewrite bind_unfold. unfold deref at 1.
  destruct (states m !! a) as [sa|] eqn:Ha; [|done]. by exists a, sa.
Qed.

Lemma can_transition_to_Some_inv m w st args
    (r : bool * StateMachine * W * list Event) :
  can_transition_to st args m w = Some r →
  ∃ a sa, current_state m = Some a ∧ states m !! a = Some sa ∧
          is_Some (states m !! st).
Proof.
  unfold can_transition_to. rewrite bind_unfold. unfold deref_current.
  destruct (current_state m) as [a|] eqn:Hc; [|done]. rewrite prefix_trace_nil.
  rewrite bind_unfold. unfold contains. cbv beta iota. rewrite prefix_trace_nil.
  case_bool_decide as Hst; [|done].
  rewrite bind_unfold. simpl assert. unfold ret at 1. cbv beta iota.
  rewrite prefix_trace_nil, bind_unfold. unfold deref at 1.
  destruct (states m !! a) as [sa|] eqn:Ha; [|done]. by exists a, sa.
Qed.

Lemma handle_transition_Some_inv m w b (r : unit * StateMachine * W * list Event) :
  handle_transition b m w = Some r →
  ∃ a sa sb, current_state m = Some a ∧ states m !! a = Some sa ∧
             states m !! b = Some sb.
Proof.
  unfold handle_transition. rewrite bind_unfold. unfold deref_current.
  destruct (current_state m) as [a|] eqn:Hc; [|done]. rewrite prefix_trace_nil.
  rewrite bind_unfold. destruct (states m !! a) as [sa|] eqn:Ha.
  - rewrite (State_exit_run m w a sa Ha). cbv beta iota.
    rewrite bind_unfold. unfold get_machine. cbv beta iota.
    rewrite prefix_trace_nil, bind_unfold. unfold put_machine. cbv beta iota.
    rewrite prefix_trace_nil. unfold State_enter. rewrite bind_unfold.
    unfold deref. simpl states.
    destruct (states m !! b) as [sb|] eqn:Hb; [|by destruct (exit_events _ _)].
    by exists a, sa, sb.
  - unfold State_exit. rewrite bind_unfold. unfold deref. by rewrite Ha.
Qed.

(** * Facts about [discover] *)

Lemma probe_guards_only a sa eid args w (b : bool) w1 tr :
  probe a sa eid args w = Some (b, w1, tr) →
  tr = [] ∧ b = false ∧ cache sa = None ∨
  ∃ c t, cache sa = Some c ∧ transitions sa !! transition_idx c = Some t ∧
         condition t eid args w = (b, w1) ∧
         tr = [EvGuard a (transition_idx c) eid args b].
Proof.
  unfold probe. destruct (cache sa) as [c|]; [|intros [= <- <- <-]; by left].
  destruct (transitions sa !! transition_idx c) as [t|] eqn:Ht; [|done].
  destruct (condition t eid args w) as [b' w'] eqn:Hcond.
  intros [= <- <- <-]. right. by exists c, t.
Qed.

Lemma discover_none sel a sa args w w1 tr :
  discover sel a sa args w = Some (None, w1, tr) →
  Forall (failed_guard a (entity_id sa) args) tr.
Proof.
  unfold discover.
  destruct (probe a sa (entity_id sa) args w) as [[[[] w0] tr0]|] eqn:Hp; [| |done].
  - by destruct (cache sa).
  - destruct (scan_guards sel a (entity_id sa) args 0 (transitions sa) w0)
      as [[[[j t]|] w2] tr2] eqn:Hscan; [done|]. intros [= <- <-].
    apply Forall_app. split; [|by eapply scan_guards_none].
    destruct (probe_guards_only _ _ _ _ _ _ _ _ Hp)
      as [(-> & _)|(c & t & _ & _ & _ & ->)]; [done|].
    constructor; [by eexists|done].
Qed.

Lemma discover_some sel a sa args w c w1 tr :
  discover sel a sa args w = Some (Some c, w1, tr) →
  ∃ pre, tr = pre ++ [EvGuard a (transition_idx c) (entity_id sa) args true] ∧
         Forall (failed_guard a (entity_id sa) args) pre.
Proof.
  unfold discover.
  destruct (probe a sa (entity_id sa) args w) as [[[[] w0] tr0]|] eqn:Hp; [| |done].
  - destruct (probe_guards_only _ _ _ _ _ _ _ _ Hp)
      as [(_ & ? & _)|(c' & t & Hc & _ & _ & ->)]; [done|].
    rewrite Hc. intros [= <- <- <-]. by exists [].
  - destruct (scan_guards sel a (entity_id sa) args 0 (transitions sa) w0)
      as [[[[j t]|] w2] tr2] eqn:Hscan; [|done]. intros [= <- <- <-].
    destruct (scan_guards_found _ _ _ _ _ _ _ _ _ _ _ Hscan)
      as (_ & _ & _ & _ & pre & -> & Hpre).
    exists (tr0 ++ pre). split; [by rewrite app_assoc|].
    apply Forall_app. split; [|done].
    destruct (probe_guards_only _ _ _ _ _ _ _ _ Hp)
      as [(-> & _)|(c & t' & _ & _ & _ & ->)]; [done|].
    constructor; [by eexists|done].
Qed.

Lemma discover_consistent sel a sa args w c w1 tr :
  cache_consistent sa →
  discover sel a sa args w = Some (Some c, w1, tr) →
  ∃ t w0, transitions sa !! transition_idx c = Some t ∧ to t = target c ∧
          condition t (entity_id sa) args w0 = (true, w1).
Proof.
  intros Hcons. unfold discover.
  destruct (probe a sa (entity_id sa) args w) as [[[[] w0] tr0]|] eqn:Hp; [| |done].
  - destruct (probe_guards_only _ _ _ _ _ _ _ _ Hp)
      as [(_ & ? & _)|(c' & t & Hc & Ht & Hcond & ->)]; [done|].
    rewrite Hc. intros [= <- <- <-].
    destruct (Hcons c' Hc) as (t' & Ht' & Hto).
    exists t, w. by simplify_eq.
  - destruct (scan_guards sel a (entity_id sa) args 0 (transitions sa) w0)
      as [[[[j t]|] w2] tr2] eqn:Hscan; [|done]. intros [= <- <- <-].
    destruct (scan_guards_found _ _ _ _ _ _ _ _ _ _ _ Hscan)
      as (_ & Hlk & _ & (w' & Hcond) & _).
    rewrite Nat.sub_0_r in Hlk. by exists t, w'.
Qed.

Lemma discover_total sel a sa args w :
  cache_consistent sa → is_Some (discover sel a sa args w).
Proof.
  intros Hcons. unfold discover, probe.
  destruct (cache sa) as [c|] eqn:Hc.
  - destruct (Hcons c Hc) as (t & -> & _).
    destruct (condition t (entity_id sa) args w) as [[] w1]; [done|].
    by destruct (scan_guards sel a (entity_id sa) args 0 (transitions sa) w1)
      as [[[[]|]?]?].
  - by destruct (scan_guards sel a (entity_id sa) args 0 (transitions sa) w)
      as [[[[]|]?]?].
Qed.

(** * Graph construction *)

Lemma contains_run m w n :
  contains n m w = Some (bool_decide (is_Some (states m !! n)), m, w, []).
Proof. done. Qed.

Lemma add_state_present m w n eid s :
  states m !! n = Some s → add_state n eid m w = Some (n, m, w, []).
Proof.
  intros Hn. unfold add_state. step (contains_run m w n).
  by rewrite bool_decide_eq_true_2 by by eexists.
Qed.

Lemma add_state_fresh m w n eid :
  states m !! n = None →
  add_state n eid m w =
    Some (n, mkStateMachine (<[n := new_State n eid]> (states m))
                            (Some (default n (current_state m))), w, []).
Proof.
  intros Hn. unfold add_state. step (contains_run m w n).
  rewrite bool_decide_eq_false_2 by (rewrite Hn; by intros [??]).
  rewrite bind_unfold. unfold store. cbv beta iota. rewrite prefix_trace_nil.
  rewrite bind_unfold. unfold get_machine. cbv beta iota.
  rewrite prefix_trace_nil, bind_unfold. simpl current_state.
  destruct m as [sts [cur|]]; done.
Qed.

Lemma add_transition_run m w from to_ cond s :
  states m !! from = Some s → is_Some (states m !! to_) →
  add_transition from to_ cond m w =
    Some (tt, mkStateMachine
                (<[from := mkState (name s) (entity_id s)
                             (transitions s ++ [mkTransition to_ cond])
                             (on_enter s) (on_exit s) (cache s)]> (states m))
                (current_state m), w, []).
Proof.
  intros Hfrom Hto. unfold add_transition. step (contains_run m w from).
  rewrite bool_decide_eq_true_2 by by eexists.
  step (contains_run m w to_). rewrite bool_decide_eq_true_2 by done.
  rewrite bind_unfold. simpl assert. unfold ret at 1. cbv beta iota.
  rewrite prefix_trace_nil. unfold State_add_transition.
  by step (deref_run _ _ m w Hfrom).
Qed.

Lemma add_transition_Some_inv m w from to_ cond
    (r : unit * StateMachine * W * list Event) :
  add_transition from to_ cond m w = Some r →
  is_Some (states m !! from) ∧ is_Some (states m !! to_).
Proof.
  unfold add_transition. step (contains_run m w from).
  case_bool_decide as Hfrom.
  - step (contains_run m w to_). case_bool_decide as Hto; [done|].
    by rewrite bind_unfold.
  - rewrite bind_unfold. unfold ret at 1. cbv beta iota. by rewrite bind_unfold.
Qed.

Lemma set_callback_run m w st enter exit s :
  states m !! st = Some s →
  set_callback st enter exit m w =
    Some (tt, mkStateMachine
                (<[st := mkState (name s) (entity_id s) (transitions s)
                           (match enter with Some _ => enter | None => on_enter s end)
                           (match exit with Some _ => exit | None => on_exit s end)
                           (cache s)]> (states m))
                (current_state m), w, []).
Proof.
  intros Hst. unfold set_callback. step (contains_run m w st).
  rewrite bool_decide_eq_true_2 by by eexists.
  rewrite bind_unfold. simpl assert. unfold ret at 1. cbv beta iota.
  rewrite prefix_trace_nil. unfold State_set_callbacks.
  by step (deref_run _ _ m w Hst).
Qed.

Lemma set_callback_Some_inv m w st enter exit
    (r : unit * StateMachine * W * list Event) :
  set_callback st enter exit m w = Some r → is_Some (states m !! st).
Proof.
  unfold set_callback. step (contains_run m w st).
  case_bool_decide as Hst; [done|]. by rewrite bind_unfold.
Qed.

Lemma start_machine m w (u : unit) m' w' tr :
  start m w = Some (u, m', w', tr) → m' = m.
Proof.
  unfold start. rewrite bind_unfold. unfold deref_current.
  destruct (current_state m) as [a|]; [|done]. rewrite prefix_trace_nil.
  destruct (states m !! a) as [sa|] eqn:Ha.
  - rewrite (State_enter_run m w a sa Ha). by intros [= _ <- _ _].
  - unfold State_enter. rewrite bind_unfold. unfold deref. by rewrite Ha.
Qed.

Lemma get_current_state_run m w a sa :
  current_state m = Some a → states m !! a = Some sa →
  get_current_state m w = Some (name sa, m, w, []).
Proof.
  intros Hc Ha. unfold get_current_state.
  step (deref_current_run _ m w Hc). by step (deref_run _ _ m w Ha).
Qed.

Lemma get_current_state_machine m w (n : T) m' w' tr :
  get_current_state m w = Some (n, m', w', tr) → m' = m.
Proof.
  unfold get_current_state. rewrite bind_unfold. unfold deref_current.
  destruct (current_state m) as [a|]; [|done]. rewrite prefix_trace_nil.
  rewrite bind_unfold. unfold deref.
  destruct (states m !! a) as [sa|]; [|done]. by intros [= _ <- _ _].
Qed.

(** * The invariant holds of every reachable machine *)

Lemma wf_insert_same_shape m p s s' :
  wf m → states m !! p = Some s →
  name s' = name s → cache s' = cache s →
  (∀ i t, transitions s !! i = Some t → transitions s' !! i = Some t) →
  (∀ t, t ∈ transitions s' → is_Some (states m !! to t)) →
  wf (mkStateMachine (<[p := s']> (states m)) (current_state m)).
Proof.
  intros [Hn Hc Hf Ht Hk] Hs Hname Hcache Hpre Htgt. split; simpl.
  - intros k s0. rewrite lookup_insert. case_decide; [|by apply Hn].
    intros [= <-]. subst. rewrite Hname. by apply Hn.
  - intros k Hk'. rewrite lookup_insert. case_decide; [done|by apply Hc].
  - intros Hnone. apply Hf in Hnone. by rewrite Hnone, lookup_empty in Hs.
  - intros k s0 t Hk' Ht'.
    assert (is_Some (states m !! to t)) as Hto.
    { rewrite lookup_insert in Hk'. case_decide; [|by eapply Ht].
      injection Hk' as <-. by apply Htgt. }
    rewrite lookup_insert. destruct (decide (p = to t)); [by eexists|done].
  - intros k s0. rewrite lookup_insert. case_decide; [|by apply Hk].
    intros [= <-] c. rewrite Hcache. intros Hc'.
    destruct (Hk p s Hs c Hc') as (t & Ht' & Hto). exists t. eauto.
Qed.

Lemma wf_add_state m w n eid (r : T) m' w' tr :
  wf m → add_state n eid m w = Some (r, m', w', tr) → wf m'.
Proof.
  intros Hwf. destruct (states m !! n) as [s|] eqn:Hn.
  - rewrite (add_state_present m w n eid s Hn). by intros [= _ <- _ _].
  - rewrite (add_state_fresh m w n eid Hn). intros [= _ <- _ _].
    destruct Hwf as [Hname Hc Hf Ht Hk]. split; simpl.
    + intros k s. rewrite lookup_insert. case_decide; [|by apply Hname].
      by intros [= <-].
    + intros k Hk'. rewrite lookup_insert. case_decide; [done|].
      destruct (current_state m) as [cur|] eqn:Hcur; simpl in Hk'; [|congruence].
      apply Hc. congruence.
    + done.
    + intros k s t. rewrite lookup_insert. case_decide.
      * intros [= <-]. simpl. by rewrite elem_of_nil.
      * intros Hk' Ht'. rewrite lookup_insert.
        destruct (decide (n = to t)); [by eexists|by eapply Ht].
    + intros k s. rewrite lookup_insert. case_decide; [|by apply Hk].
      by intros [= <-] c.
Qed.

Lemma wf_add_transition m w from to_ cond (u : unit) m' w' tr :
  wf m → add_transition from to_ cond m w = Some (u, m', w', tr) → wf m'.
Proof.
  intros Hwf Hrun.
  destruct (add_transition_Some_inv _ _ _ _ _ _ Hrun) as [[s Hfrom] Hto].
  rewrite (add_transition_run m w from to_ cond s Hfrom Hto) in Hrun.
  injection Hrun as _ <- _ _.
  apply (wf_insert_same_shape m from s); try done.
  - intros i t Hi. simpl. by apply lookup_app_l_Some.
  - intros t. simpl. rewrite elem_of_app, list_elem_of_singleton.
    intros [Ht| ->]; [by eapply wf_targets|done].
Qed.

Lemma wf_set_callback m w st enter exit (u : unit) m' w' tr :
  wf m → set_callback st enter exit m w = Some (u, m', w', tr) → wf m'.
Proof.
  intros Hwf Hrun.
  destruct (set_callback_Some_inv _ _ _ _ _ _ Hrun) as [s Hst].
  rewrite (set_callback_run m w st enter exit s Hst) in Hrun.
  injection Hrun as _ <- _ _.
  apply (wf_insert_same_shape m st s); try done.
  intros t Ht. by eapply wf_targets.
Qed.

Lemma wf_update m w args (u : unit) m' w' tr :
  wf m → update args m w = Some (u, m', w', tr) → wf m'.
Proof.
  intros Hwf Hrun.
  destruct (update_Some_inv _ _ _ _ Hrun) as (a & sa & Hc & Ha).
  rewrite (update_discover m w a sa args Hc Ha) in Hrun.
  destruct (discover any_target a sa args w) as [[[[c|] w1] tr1]|] eqn:Hd;
    [| |done].
  - destruct (discover_consistent _ _ _ _ _ _ _ _ (wf_cache m Hwf a sa Ha) Hd)
      as (t & w0 & Ht & Hto & _).
    assert (is_Some (states m !! target c)) as [sb Hb].
    { rewrite <-Hto. eapply wf_targets; [done..|]. by eapply list_elem_of_lookup_2. }
    rewrite (handle_transition_cached m w1 a sa _ (target c) sb) in Hrun by done.
    injection Hrun as _ <- _ _.
    assert (wf (with_cache m a sa (Some c))) as Hwf'.
    { apply wf_with_cache; [done..|]. intros c' [= <-]. by exists t. }
    apply wf_with_current; [done|].
    unfold with_cache. simpl. rewrite lookup_insert. by case_decide.
  - injection Hrun as _ <- _ _.
    apply wf_with_cache; [done..|apply cache_consistent_none].
Qed.

Lemma wf_can_transition_to m w st args (r : bool) m' w' tr :
  wf m → can_transition_to st args m w = Some (r, m', w', tr) → wf m'.
Proof.
  intros Hwf Hrun.
  destruct (can_transition_to_Some_inv _ _ _ _ _ Hrun) as (a & sa & Hc & Ha & Hst).
  rewrite (can_transition_to_discover m w a sa st args Hc Ha Hst) in Hrun.
  destruct (discover (targets st) a sa args w) as [[[[c|] w1] tr1]|] eqn:Hd;
    [| |done].
  - destruct (discover_consistent _ _ _ _ _ _ _ _ (wf_cache m Hwf a sa Ha) Hd)
      as (t & w0 & Ht & Hto & _).
    injection Hrun as _ <- _ _.
    apply wf_with_cache; [done..|]. intros c' [= <-]. by exists t.
  - injection Hrun as _ <- _ _.
    apply wf_with_cache; [done..|apply cache_consistent_none].
Qed.

Lemma wf_step m w o (u : unit) m' w' tr :
  wf m → run_op o m w = Some (u, m', w', tr) → wf m'.
Proof.
  intros Hwf. destruct o; simpl.
  - intros Hrun. apply bind_Some in Hrun
      as (x & m1 & w1 & tr1 & tr2 & Hrun & [= _ <- _ _] & _).
    by eapply wf_add_state.
  - by apply wf_add_transition.
  - by apply wf_set_callback.
  - intros Hrun. by rewrite (start_machine _ _ _ _ _ _ Hrun).
  - by apply wf_update.
  - intros Hrun. apply bind_Some in Hrun
      as (x & m1 & w1 & tr1 & tr2 & Hrun & [= _ <- _ _] & _).
    by rewrite (get_current_state_machine _ _ _ _ _ _ Hrun).
  - intros Hrun. apply bind_Some in Hrun
      as (x & m1 & w1 & tr1 & tr2 & Hrun & [= _ <- _ _] & _).
    by eapply wf_can_transition_to.
  - intros Hrun. apply bind_Some in Hrun
      as (x & m1 & w1 & tr1 & tr2 & [= _ <- _ _] & [= _ <- _ _] & _). done.
Qed.

Lemma wf_reachable m : reachable m → wf m.
Proof.
  induction 1 as [|m o w u m' w' tr _ IH Hrun]; [apply wf_empty|].
  by eapply wf_step.
Qed.

Lemma reachable_run_ops os m w (u : unit) m' w' tr :
  reachable m → run_ops os m w = Some (u, m', w', tr) → reachable m'.
Proof.
  revert m w tr. induction os as [|o os IH]; intros m w tr Hm.
  - by intros [= _ <- _ _].
  - simpl. intros Hrun. apply bind_Some in Hrun
      as ([] & m1 & w1 & tr1 & tr2 & Ho & Hos & _).
    eapply IH; [|done]. by eapply reachable_step.
Qed.

(** * Traces *)

Lemma prefix_trace_Some {A} evs (r : Result A) (x : A) m' w' tr :
  prefix_trace evs r = Some (x, m', w', tr) →
  ∃ tr2, r = Some (x, m', w', tr2) ∧ tr = evs ++ tr2.
Proof.
  destruct r as [[[[x0 m0] w0] tr0]|]; [|done]. intros [= -> -> -> <-].
  by exists tr0.
Qed.

Lemma guards_of_app tr1 tr2 : guards_of (tr1 ++ tr2) = guards_of tr1 ++ guards_of tr2.
Proof. apply List.filter_app. Qed.

Lemma callbacks_of_app tr1 tr2 :
  callbacks_of (tr1 ++ tr2) = callbacks_of tr1 ++ callbacks_of tr2.
Proof. apply List.filter_app. Qed.

Lemma failed_guards_only a eid args tr :
  Forall (failed_guard a eid args) tr → guards_of tr = tr ∧ callbacks_of tr = [].
Proof.
  induction 1 as [|e tr [i ->] _ [IHg IHc]]; [done|].
  unfold guards_of, callbacks_of in *. simpl. by rewrite IHg, IHc.
Qed.

Lemma discover_guards_only sel a sa args w oc w1 tr :
  discover sel a sa args w = Some (oc, w1, tr) →
  guards_of tr = tr ∧ callbacks_of tr = [].
Proof.
  destruct oc as [c|]; intros Hd.
  - destruct (discover_some _ _ _ _ _ _ _ _ Hd) as (pre & -> & Hpre).
    destruct (failed_guards_only _ _ _ _ Hpre) as [Hg Hc].
    by rewrite guards_of_app, callbacks_of_app, Hg, Hc.
  - by eapply failed_guards_only, discover_none.
Qed.

Lemma hook_events_callbacks_only sa sb cur cur' :
  guards_of (exit_events sa cur ++ enter_events sb cur') = [] ∧
  callbacks_of (exit_events sa cur ++ enter_events sb cur') =
    exit_events sa cur ++ enter_events sb cur'.
Proof.
  unfold exit_events, enter_events.
  by destruct (on_exit sa), (on_enter sb).
Qed.

Lemma wf_cached_target_discovered m a sa c t :
  wf m → states m !! a = Some sa →
  transitions sa !! transition_idx c = Some t → to t = target c →
  is_Some (states m !! target c).
Proof.
  intros Hwf Ha Ht <-. eapply wf_targets; [done..|]. by eapply list_elem_of_lookup_2.
Qed.

Lemma update_taken_inv m w a sa args c w1 trd m' w' tr :
  current_state m = Some a → states m !! a = Some sa →
  discover any_target a sa args w = Some (Some c, w1, trd) →
  update args m w = Some (tt, m', w', tr) →
  ∃ sb, states m !! target c = Some sb ∧
        m' = with_current (with_cache m a sa (Some c)) (target c) ∧
        w' = enter_world sb (exit_world sa w1) ∧
        tr = trd ++ exit_events sa (Some a) ++ enter_events sb (Some (target c)).
Proof.
  intros Hc Ha Hd Hrun.
  assert (is_Some (states m !! target c)) as [sb Hb].
  { rewrite (update_discover m w a sa args Hc Ha), Hd in Hrun.
    apply prefix_trace_Some in Hrun as (tr2 & Hrun & _).
    apply handle_transition_Some_inv in Hrun as (_ & _ & sb' & _ & _ & Hb).
    destruct (decide (a = target c)) as [<-|Hne]; [by eexists|].
    rewrite with_cache_lookup_ne in Hb by done. by eexists. }
  rewrite (update_taken m w a sa args c w1 trd sb Hc Ha Hb Hd) in Hrun.
  injection Hrun as <- <- <-. by exists sb.
Qed.

Lemma matched_guard_unique a sa sb eid args pre j i cur cur' :
  Forall (failed_guard a eid args) pre →
  EvGuard a i eid args true ∈
    (pre ++ [EvGuard a j eid args true]) ++
    exit_events sa cur ++ enter_events sb cur' →
  i = j.
Proof.
  intros Hpre Hin. rewrite !elem_of_app, list_elem_of_singleton in Hin.
  destruct Hin as [[Hin|Hin]|[Hin|Hin]].
  - rewrite Forall_forall in Hpre. by destruct (Hpre _ Hin) as [??].
  - by injection Hin.
  - unfold exit_events in Hin. destruct (on_exit sa); [|by apply elem_of_nil in Hin].
    by apply list_elem_of_singleton in Hin.
  - unfold enter_events in Hin. destruct (on_enter sb); [|by apply elem_of_nil in Hin].
    by apply list_elem_of_singleton in Hin.
Qed.

Lemma discover_after_miss sel a sa args w w0 tr0 c w1 tr :
  probe a sa (entity_id sa) args w = Some (false, w0, tr0) →
  discover sel a sa args w = Some (Some c, w1, tr) →
  ∃ t, transitions sa !! transition_idx c = Some t ∧
       c = mkTransitionCache (to t) (transition_idx c) ∧ sel t = true.
Proof.
  intros Hp. unfold discover. rewrite Hp.
  destruct (scan_guards sel a (entity_id sa) args 0 (transitions sa) w0)
    as [[[[j t]|] w2] tr2] eqn:Hscan; [|done]. intros [= <- <- <-].
  destruct (scan_guards_found _ _ _ _ _ _ _ _ _ _ _ Hscan) as (_ & Hlk & Hsel & _).
  rewrite Nat.sub_0_r in Hlk. by exists t.
Qed.

Lemma try_cached_probe m w a sa eid args (b : bool) m0 w0 tr0 :
  states m !! a = Some sa →
  State_try_cached_transition a eid args m w = Some (b, m0, w0, tr0) →
  probe a sa eid args w = Some (b, w0, tr0).
Proof.
  intros Ha. rewrite (try_cached_run m w a sa eid args Ha).
  destruct (probe a sa eid args w) as [[[b' w'] tr']|]; [|done].
  by intros [= -> _ -> ->].
Qed.

(** * The operations return on reachable machines *)

Lemma update_returns m w args a sa :
  wf m → current_state m = Some a → states m !! a = Some sa →
  ∃ oc w1 trd m' w' tr,
    discover any_target a sa args w = Some (oc, w1, trd) ∧
    update args m w = Some (tt, m', w', tr).
Proof.
  intros Hwf Hc Ha.
  destruct (discover_total any_target a sa args w (wf_cache m Hwf a sa Ha))
    as [[[[c|] w1] trd] Hd].
  - destruct (discover_consistent _ _ _ _ _ _ _ _ (wf_cache m Hwf a sa Ha) Hd)
      as (t & w0 & Ht & Hto & _).
    destruct (wf_cached_target_discovered m a sa c t) as [sb Hb]; [done..|].
    eexists _, _, _, _, _, _. split; [done|]. by eapply update_taken.
  - eexists _, _, _, _, _, _. split; [done|]. by eapply update_stays.
Qed.

Lemma can_transition_to_returns m w st args a sa :
  wf m → current_state m = Some a → states m !! a = Some sa →
  is_Some (states m !! st) →
  ∃ oc w1 trd,
    discover (targets st) a sa args w = Some (oc, w1, trd) ∧
    can_transition_to st args m w =
      Some (match oc with
            | Some c => bool_decide (target c = st)
            | None => false
            end, with_cache m a sa oc, w1, trd).
Proof.
  intros Hwf Hc Ha Hst.
  destruct (discover_total (targets st) a sa args w (wf_cache m Hwf a sa Ha))
    as [[[oc w1] trd] Hd].
  exists oc, w1, trd. split; [done|].
  rewrite (can_transition_to_discover m w a sa st args Hc Ha Hst), Hd.
  by destruct oc.
Qed.

(** * Properties of the engine *)

(** C8. [add_state] on a name that is already present returns the existing
    state and leaves the machine as it is: a second call with the same name,
    whatever the id, returns the same state, keeps the entity id of the first
    call and adds or changes no entry.  The first [add_state] on a fresh
    machine makes the new state the current state. *)
Theorem add_state_idempotent m w n eid eid' :
  (∀ s, states m !! n = Some s → add_state n eid m w = Some (n, m, w, [])) ∧
  (∃ m1 s1, add_state n eid m w = Some (n, m1, w, []) ∧
            states m1 !! n = Some s1 ∧
            (states m !! n = None → s1 = new_State n eid) ∧
            add_state n eid' m1 w = Some (n, m1, w, [])) ∧
  (∃ m1, add_state n eid empty_machine w = Some (n, m1, w, []) ∧
         current_state m1 = Some n ∧
         states m1 = {[ n := new_State n eid ]}).
Proof.
  split; [|split].
  - intros s Hs. by eapply add_state_present.
  - destruct (states m !! n) as [s|] eqn:Hn.
    + exists m, s. rewrite !(add_state_present m w n _ s Hn). done.
    + eexists _, (new_State n eid). rewrite (add_state_fresh m w n eid Hn).
      split; [done|]. split; [by simpl; rewrite lookup_insert_eq|].
      split; [done|]. eapply add_state_present. simpl. apply lookup_insert_eq.
  - eexists. rewrite add_state_fresh by apply lookup_empty. done.
Qed.

(** C9. Cache consistency is an invariant: in every reachable machine, a
    state whose cache slot is present has a transition at the cached index,
    and the target of that transition is the cached target. *)
Theorem cache_consistency_invariant m k s c :
  reachable m → states m !! k = Some s → cache s = Some c →
  ∃ t, transitions s !! transition_idx c = Some t ∧ to t = target c.
Proof.
  intros Hreach Hs Hc. by eapply (wf_cache m (wf_reachable m Hreach) k s Hs).
Qed.

(** C4. The cache probe of [update]: when the current state holds a cached
    (index, target) and the guard at that index returns true on the fresh
    arguments, [update] moves to the cached target and that guard is the only
    one evaluated; when it returns false, the cache is cleared and [update]
    continues with the full scan. *)
Theorem update_cache_probe m w args a sa c t :
  current_state m = Some a → states m !! a = Some sa →
  cache sa = Some c → transitions sa !! transition_idx c = Some t →
  match condition t (entity_id sa) args w with
  | (true, w1) =>
      ∀ sb, states m !! target c = Some sb →
      update args m w =
        Some (tt, with_current m (target c), enter_world sb (exit_world sa w1),
              EvGuard a (transition_idx c) (entity_id sa) args true ::
              exit_events sa (Some a) ++ enter_events sb (Some (target c)))
  | (false, w1) =>
      update args m w =
        prefix_trace [EvGuard a (transition_idx c) (entity_id sa) args false]
          (update_scan a (entity_id sa) args 0 (transitions sa)
             (with_cache m a sa None) w1)
  end.
Proof.
  intros Hc Ha Hcache Ht. rewrite (update_run m w a sa args Hc Ha).
  unfold probe. rewrite Hcache, Ht.
  destruct (condition t (entity_id sa) args w) as [[] w1]; [|done].
  intros sb Hb. by rewrite (handle_transition_run m w1 a sa (target c) sb).
Qed.

(** C6. An [update] call on a reachable machine with a current state
    returns; when no guard it evaluated returned true (neither the cached one
    nor one of the full scan), the current state is the same after the call,
    no callback has run, and the cache of the current state is empty. *)
Theorem update_no_match m w args :
  reachable m → is_Some (current_state m) →
  ∃ m' w' tr,
    update args m w = Some (tt, m', w', tr) ∧
    (no_guard_matches tr →
     current_state m' = current_state m ∧ callbacks_of tr = [] ∧
     ∃ a sa', current_state m' = Some a ∧ states m' !! a = Some sa' ∧
              cache sa' = None).
Proof.
  intros Hreach [a Hc]. pose proof (wf_reachable m Hreach) as Hwf.
  destruct (wf_current m Hwf a Hc) as [sa Ha].
  destruct (update_returns m w args a sa Hwf Hc Ha)
    as (oc & w1 & trd & m' & w' & tr & Hd & Hrun).
  exists m', w', tr. split; [done|]. intros Hno. destruct oc as [c|].
  - destruct (update_taken_inv m w a sa args c w1 trd m' w' tr Hc Ha Hd Hrun)
      as (sb & _ & _ & _ & ->).
    destruct (discover_some _ _ _ _ _ _ _ _ Hd) as (pre & -> & _).
    destruct (Hno a (transition_idx c) (entity_id sa) args).
    rewrite !elem_of_app, list_elem_of_singleton. auto.
  - rewrite (update_stays m w a sa args w1 trd Hc Ha Hd) in Hrun.
    injection Hrun as <- <- <-. split; [done|].
    split; [by eapply discover_guards_only|].
    exists a, (set_cache sa None). split; [done|].
    split; [apply with_cache_lookup|done].
Qed.

(** C7. [can_transition_to], called on a reachable machine with a current
    state for a state that exists, returns; it leaves the current state as it
    is, so that [get_current_state] returns the same name before and after, and
    runs no callback; the machine after the call is the machine before it
    with, at most, another content in the cache slot of the current state. *)
Theorem can_transition_to_frame m w st args :
  reachable m → is_Some (current_state m) → is_Some (states m !! st) →
  ∃ (r : bool) m' w' tr,
    can_transition_to st args m w = Some (r, m', w', tr) ∧
    current_state m' = current_state m ∧
    (∀ w0, is_Some (result_of (get_current_state m w0)) ∧
           result_of (get_current_state m' w0) = result_of (get_current_state m w0)) ∧
    callbacks_of tr = [] ∧
    ∃ a sa oc, current_state m = Some a ∧ states m !! a = Some sa ∧
               m' = with_cache m a sa oc.
Proof.
  intros Hreach [a Hc] Hst. pose proof (wf_reachable m Hreach) as Hwf.
  destruct (wf_current m Hwf a Hc) as [sa Ha].
  destruct (can_transition_to_returns m w st args a sa Hwf Hc Ha Hst)
    as (oc & w1 & trd & Hd & Hrun).
  eexists _, _, _, _. split; [exact Hrun|]. split; [done|]. split; [|split].
  - intros w0. rewrite (get_current_state_run m w0 a sa Hc Ha).
    rewrite (get_current_state_run (with_cache m a sa oc) w0 a (set_cache sa oc))
      by (done || apply with_cache_lookup).
    split; [by eexists|done].
  - by eapply discover_guards_only.
  - by exists a, sa, oc.
Qed.


(** C10. With guards whose answer depends on the entity id and the arguments
    only: in a reachable machine, when [can_transition_to st args] returns
    true, an [update args] issued next moves the machine to [st]. *)
Theorem can_transition_to_then_update m w st args m1 w1 tr1 :
  reachable m →
  (∀ k s t, states m !! k = Some s → t ∈ transitions s →
     deterministic (condition t)) →
  can_transition_to st args m w = Some (true, m1, w1, tr1) →
  ∃ m2 w2 tr2, update args m1 w1 = Some (tt, m2, w2, tr2) ∧
               current_state m2 = Some st ∧
               result_of (get_current_state m2 w2) = Some st.
Proof.
  intros Hreach Hdet Hcan. pose proof (wf_reachable m Hreach) as Hwf.
  pose proof (wf_can_transition_to _ _ _ _ _ _ _ _ Hwf Hcan) as Hwf1.
  destruct (can_transition_to_Some_inv _ _ _ _ _ Hcan) as (a & sa & Hc & Ha & Hst).
  rewrite (can_transition_to_discover m w a sa st args Hc Ha Hst) in Hcan.
  destruct (discover (targets st) a sa args w) as [[[[c|] w0] tr0]|] eqn:Hd;
    [| |done]; [|by injection Hcan].
  injection Hcan as Htgt <- <- <-. apply bool_decide_eq_true_1 in Htgt.
  destruct (discover_consistent _ _ _ _ _ _ _ _ (wf_cache m Hwf a sa Ha) Hd)
    as (t & w' & Ht & Hto & Hcond).
  assert ((condition t (entity_id sa) args w0).1 = true) as Htrue.
  { rewrite (Hdet a sa t Ha (list_elem_of_lookup_2 _ _ _ Ht) _ _ w0 w').
    by rewrite Hcond. }
  set (m1 := with_cache m a sa (Some c)) in *.
  assert (states m1 !! a = Some (set_cache sa (Some c))) as Ha1
    by apply with_cache_lookup.
  destruct (wf_cached_target m1 a _ c Hwf1 Ha1 eq_refl) as [sb Hb].
  destruct (condition t (entity_id sa) args w0) as [b w2] eqn:Hcond0.
  simpl in Htrue. subst b.
  assert (discover any_target a (set_cache sa (Some c)) args w0 =
    Some (Some c, w2, [EvGuard a (transition_idx c) (entity_id sa) args true]))
    as Hd1.
  { unfold discover, probe. simpl. by rewrite Ht, Hcond0. }
  pose proof (update_taken m1 w0 a _ args c w2 _ sb Hc Ha1 Hb Hd1) as Hupd.
  eexists _, _, _. split; [exact Hupd|]. split; [by rewrite <-Htgt|].
  pose proof (wf_update _ _ _ _ _ _ _ Hwf1 Hupd) as Hwf2.
  destruct (wf_current _ Hwf2 (target c) eq_refl) as [s2 Hs2].
  erewrite get_current_state_run; [|reflexivity|exact Hs2]. simpl.
  by rewrite (wf_name _ Hwf2 _ _ Hs2), Htgt.
Qed.

(** C1, amended. First-match priority holds on every [update] call that
    reaches the full scan, that is when the cache slot of the current state is
    empty or the cached guard returns false: the call takes the transition
    added first among those whose guards evaluate true, and records it in the
    cache. *)
Theorem update_first_match_on_scan m w args a sa m0 w0 tr0 i ti :
  reachable m → current_state m = Some a → states m !! a = Some sa →
  State_try_cached_transition a (entity_id sa) args m w = Some (false, m0, w0, tr0) →
  transitions sa !! i = Some ti →
  evaluates true ti (entity_id sa) args →
  (∀ j tj, j < i → transitions sa !! j = Some tj →
     evaluates false tj (entity_id sa) args) →
  ∃ m' w' tr sa',
    update args m w = Some (tt, m', w', tr) ∧
    current_state m' = Some (to ti) ∧
    states m' !! a = Some sa' ∧
    cache sa' = Some (mkTransitionCache (to ti) i).
Proof.
  intros Hreach Hc Ha Hmiss Hi Htrue Hfalse.
  pose proof (wf_reachable m Hreach) as Hwf.
  apply (try_cached_probe m w a sa _ _ _ _ _ _ Ha) in Hmiss.
  destruct (scan_guards_first any_target a (entity_id sa) args (transitions sa)
              i ti 0 w0 Hi eq_refl Htrue) as (w1 & tr & Hscan).
  { intros j tj Hj Hlk _. by eapply Hfalse. }
  assert (discover any_target a sa args w =
    Some (Some (mkTransitionCache (to ti) i), w1, tr0 ++ tr)) as Hd.
  { unfold discover. by rewrite Hmiss, Hscan. }
  assert (is_Some (states m !! to ti)) as [sb Hb].
  { eapply wf_targets; [done..|]. by eapply list_elem_of_lookup_2. }
  eexists _, _, _, _.
  rewrite (update_taken m w a sa args (mkTransitionCache (to ti) i) w1 _ sb Hc Ha Hb Hd).
  split; [done|]. split; [done|]. split; [apply with_cache_lookup|done].
Qed.

(** C2, amended. After an [update] whose full scan takes transition [i] of
    state A, the cache of A holds [i] and its target.  When that target is A
    itself, the next [update], with arguments that satisfy the same guard,
    evaluates that guard only and moves to the same target. *)
Theorem cache_hit_after_self_transition m w args args' a sa i t
    m0 w0 tr0 m1 w1 tr1 :
  current_state m = Some a → states m !! a = Some sa →
  transitions sa !! i = Some t →
  State_try_cached_transition a (entity_id sa) args m w = Some (false, m0, w0, tr0) →
  update args m w = Some (tt, m1, w1, tr1) →
  EvGuard a i (entity_id sa) args true ∈ tr1 →
  (∃ sa', states m1 !! a = Some sa' ∧
          cache sa' = Some (mkTransitionCache (to t) i)) ∧
  (to t = a →
   (condition t (entity_id sa) args' w1).1 = true →
   ∃ m2 w2 tr2, update args' m1 w1 = Some (tt, m2, w2, tr2) ∧
                guards_of tr2 = [EvGuard a i (entity_id sa) args' true] ∧
                current_state m2 = Some (to t)).
Proof.
  intros Hc Ha Hi Hmiss Hrun Hin.
  apply (try_cached_probe m w a sa _ _ _ _ _ _ Ha) in Hmiss.
  destruct (discover any_target a sa args w) as [[[[c|] w2] trd]|] eqn:Hd.
  - destruct (update_taken_inv m w a sa args c w2 trd m1 w1 tr1 Hc Ha Hd Hrun)
      as (sb & Hb & -> & -> & ->).
    destruct (discover_after_miss _ _ _ _ _ _ _ _ _ _ Hmiss Hd) as (t' & Ht' & Hceq & _).
    destruct (discover_some _ _ _ _ _ _ _ _ Hd) as (pre & -> & Hpre).
    pose proof (matched_guard_unique _ _ _ _ _ _ _ _ _ _ Hpre Hin) as ->.
    assert (t' = t) as -> by congruence. rewrite <-Hceq.
    split; [exists (set_cache sa (Some c)); split; [apply with_cache_lookup|done]|].
    intros Hself Hsat.
    assert (target c = a) as Htc by (by rewrite Hceq).
    set (m1 := with_current (with_cache m a sa (Some c)) (target c)).
    assert (current_state m1 = Some a) as Hc1 by (by simpl; rewrite Htc).
    assert (states m1 !! a = Some (set_cache sa (Some c))) as Ha1
      by apply with_cache_lookup.
    destruct (condition t (entity_id sa) args' (enter_world sb (exit_world sa w2)))
      as [b w3] eqn:Hcond. simpl in Hsat. subst b.
    assert (discover any_target a (set_cache sa (Some c)) args'
              (enter_world sb (exit_world sa w2)) =
      Some (Some c, w3, [EvGuard a (transition_idx c) (entity_id sa) args' true]))
      as Hd1.
    { unfold discover, probe. simpl. by rewrite Ht', Hcond. }
    assert (states m1 !! target c = Some (set_cache sa (Some c))) as Hb1
      by (by rewrite Htc).
    eexists _, _, _.
    rewrite (update_taken m1 _ a _ args' c w3 _ _ Hc1 Ha1 Hb1 Hd1).
    split; [done|]. split; [|by simpl; rewrite Htc, Hself].
    rewrite guards_of_app.
    destruct (hook_events_callbacks_only (set_cache sa (Some c))
                (set_cache sa (Some c)) (Some a) (Some (target c))) as [-> _].
    done.
  - rewrite (update_stays m w a sa args w2 trd Hc Ha Hd) in Hrun.
    injection Hrun as <- <- <-.
    pose proof (discover_none _ _ _ _ _ _ _ Hd) as Hall.
    rewrite Forall_forall in Hall. by destruct (Hall _ Hin) as [??].
  - by rewrite (update_discover m w a sa args Hc Ha), Hd in Hrun.
Qed.

(** * Further properties: pointers, preconditions, frames *)

Lemma add_state_inv m w n eid (r : T) m' w' tr :
  add_state n eid m w = Some (r, m', w', tr) →
  r = n ∧ w' = w ∧ tr = [] ∧
  (is_Some (states m !! n) ∧ m' = m ∨
   states m !! n = None ∧
   m' = mkStateMachine (<[n := new_State n eid]> (states m))
                       (Some (default n (current_state m)))).
Proof.
  destruct (states m !! n) as [s|] eqn:Hn.
  - rewrite (add_state_present m w n eid s Hn). intros [= <- <- <- <-].
    repeat split; try done. left. by split; [eexists|].
  - rewrite (add_state_fresh m w n eid Hn). intros [= <- <- <- <-].
    repeat split; try done. by right.
Qed.

Lemma add_transition_inv m w from to_ cond (u : unit) m' w' tr :
  add_transition from to_ cond m w = Some (u, m', w', tr) →
  ∃ s, states m !! from = Some s ∧ is_Some (states m !! to_) ∧
       w' = w ∧ tr = [] ∧
       m' = mkStateMachine
              (<[from := mkState (name s) (entity_id s)
                           (transitions s ++ [mkTransition to_ cond])
                           (on_enter s) (on_exit s) (cache s)]> (states m))
              (current_state m).
Proof.
  intros Hrun.
  destruct (add_transition_Some_inv _ _ _ _ _ _ Hrun) as [[s Hfrom] Hto].
  rewrite (add_transition_run m w from to_ cond s Hfrom Hto) in Hrun.
  injection Hrun as <- <- <-. by exists s.
Qed.

Lemma set_callback_inv m w st enter exit (u : unit) m' w' tr :
  set_callback st enter exit m w = Some (u, m', w', tr) →
  ∃ s, states m !! st = Some s ∧ w' = w ∧ tr = [] ∧
       m' = mkStateMachine
              (<[st := mkState (name s) (entity_id s) (transitions s)
                         (match enter with Some _ => enter | None => on_enter s end)
                         (match exit with Some _ => exit | None => on_exit s end)
                         (cache s)]> (states m))
              (current_state m).
Proof.
  intros Hrun. destruct (set_callback_Some_inv _ _ _ _ _ _ Hrun) as [s Hst].
  rewrite (set_callback_run m w st enter exit s Hst) in Hrun.
  injection Hrun as <- <- <-. by exists s.
Qed.

Lemma start_inv m w (u : unit) m' w' tr :
  start m w = Some (u, m', w', tr) →
  ∃ a sa, current_state m = Some a ∧ states m !! a = Some sa ∧
          m' = m ∧ w' = enter_world sa w ∧ tr = enter_events sa (Some a).
Proof.
  unfold start. rewrite bind_unfold. unfold deref_current.
  destruct (current_state m) as [a|] eqn:Hc; [|done]. rewrite prefix_trace_nil.
  destruct (states m !! a) as [sa|] eqn:Ha.
  - rewrite (State_enter_run m w a sa Ha), Hc. intros [= <- <- <-].
    by exists a, sa.
  - unfold State_enter. rewrite bind_unfold. unfold deref. by rewrite Ha.
Qed.

Lemma get_current_state_inv m w (n : T) m' w' tr :
  get_current_state m w = Some (n, m', w', tr) →
  ∃ a sa, current_state m = Some a ∧ states m !! a = Some sa ∧
          n = name sa ∧ m' = m ∧ w' = w ∧ tr = [].
Proof.
  unfold get_current_state. rewrite bind_unfold. unfold deref_current.
  destruct (current_state m) as [a|] eqn:Hc; [|done]. rewrite prefix_trace_nil.
  rewrite bind_unfold. unfold deref.
  destruct (states m !! a) as [sa|] eqn:Ha; [|done].
  intros [= <- <- <- <-]. by exists a, sa.
Qed.

Lemma update_shape m w args (u : unit) m' w' tr :
  update args m w = Some (u, m', w', tr) →
  ∃ a sa oc, current_state m = Some a ∧ states m !! a = Some sa ∧
    states m' = states (with_cache m a sa oc) ∧
    (current_state m' = Some a ∨
     ∃ c sb, oc = Some c ∧ states m !! target c = Some sb ∧
             current_state m' = Some (target c)).
Proof.
  intros Hrun. destruct u.
  destruct (update_Some_inv _ _ _ _ Hrun) as (a & sa & Hc & Ha).
  destruct (discover any_target a sa args w) as [[[[c|] w1] trd]|] eqn:Hd.
  - destruct (update_taken_inv m w a sa args c w1 trd m' w' tr Hc Ha Hd Hrun)
      as (sb & Hb & -> & _ & _).
    exists a, sa, (Some c). repeat split; try done. right. by exists c, sb.
  - rewrite (update_stays m w a sa args w1 trd Hc Ha Hd) in Hrun.
    injection Hrun as <- _ _. exists a, sa, None. repeat split; try done.
    by left.
  - by rewrite (update_discover m w a sa args Hc Ha), Hd in Hrun.
Qed.

Lemma can_transition_to_shape m w st args (r : bool) m' w' tr :
  can_transition_to st args m w = Some (r, m', w', tr) →
  ∃ a sa oc, current_state m = Some a ∧ states m !! a = Some sa ∧
             m' = with_cache m a sa oc.
Proof.
  intros Hrun.
  destruct (can_transition_to_Some_inv _ _ _ _ _ Hrun) as (a & sa & Hc & Ha & Hst).
  rewrite (can_transition_to_discover m w a sa st args Hc Ha Hst) in Hrun.
  destruct (discover (targets st) a sa args w) as [[[oc w1] tr1]|]; [|done].
  exists a, sa, oc. repeat split; try done. by destruct oc; injection Hrun as _ <- _ _.
Qed.

Lemma State_extends_refl s : State_extends s s.
Proof. by repeat split. Qed.

Lemma State_extends_trans s1 s2 s3 :
  State_extends s1 s2 → State_extends s2 s3 → State_extends s1 s3.
Proof.
  intros (Hn & He & Ht & Hi & Ho) (Hn' & He' & Ht' & Hi' & Ho').
  repeat split; [congruence|congruence|by etrans|auto|auto].
Qed.

Lemma State_extends_set_cache s oc : State_extends s (set_cache s oc).
Proof. by repeat split. Qed.

Lemma run_op_extends m w o (u : unit) m' w' tr k s :
  run_op o m w = Some (u, m', w', tr) → states m !! k = Some s →
  ∃ s', states m' !! k = Some s' ∧ State_extends s s'.
Proof.
  intros Hrun Hk. destruct o; simpl in Hrun.
  - apply bind_Some in Hrun as (x & m1 & w1 & tr1 & tr2 & Hrun & [= _ <- _ _] & _).
    destruct (add_state_inv _ _ _ _ _ _ _ _ Hrun)
      as (_ & _ & _ & [[_ ->]|[Hn ->]]).
    + exists s. split; [done|apply State_extends_refl].
    + exists s. split; [|apply State_extends_refl]. simpl.
      rewrite lookup_insert_ne; [done|]. intros ->. congruence.
  - destruct (add_transition_inv _ _ _ _ _ _ _ _ _ Hrun)
      as (s0 & Hfrom & _ & _ & _ & ->). simpl.
    destruct (decide (from = k)) as [->|Hne].
    + rewrite lookup_insert_eq. eexists. split; [done|].
      assert (s0 = s) as -> by congruence.
      repeat split; try done. by apply prefix_app_r.
    + rewrite lookup_insert_ne by done. exists s.
      split; [done|apply State_extends_refl].
  - destruct (set_callback_inv _ _ _ _ _ _ _ _ _ Hrun)
      as (s0 & Hst & _ & _ & ->). simpl.
    destruct (decide (st = k)) as [->|Hne].
    + rewrite lookup_insert_eq. eexists. split; [done|].
      assert (s0 = s) as -> by congruence.
      repeat split; simpl; try done.
      * by destruct enter.
      * by destruct exit.
    + rewrite lookup_insert_ne by done. exists s.
      split; [done|apply State_extends_refl].
  - destruct (start_inv _ _ _ _ _ _ Hrun) as (_ & _ & _ & _ & -> & _).
    exists s. split; [done|apply State_extends_refl].
  - destruct (update_shape _ _ _ _ _ _ _ Hrun)
      as (a & sa & oc & _ & Ha & -> & _). unfold with_cache. simpl.
    destruct (decide (a = k)) as [->|Hne].
    + rewrite lookup_insert_eq. eexists. split; [done|].
      assert (sa = s) as -> by congruence. apply State_extends_set_cache.
    + rewrite lookup_insert_ne by done. exists s.
      split; [done|apply State_extends_refl].
  - apply bind_Some in Hrun as (x & m1 & w1 & tr1 & tr2 & Hrun & [= _ <- _ _] & _).
    destruct (get_current_state_inv _ _ _ _ _ _ Hrun) as (_ & _ & _ & _ & _ & -> & _).
    exists s. split; [done|apply State_extends_refl].
  - apply bind_Some in Hrun as (x & m1 & w1 & tr1 & tr2 & Hrun & [= _ <- _ _] & _).
    destruct (can_transition_to_shape _ _ _ _ _ _ _ _ Hrun)
      as (a & sa & oc & _ & Ha & ->). unfold with_cache. simpl.
    destruct (decide (a = k)) as [->|Hne].
    + rewrite lookup_insert_eq. eexists. split; [done|].
      assert (sa = s) as -> by congruence. apply State_extends_set_cache.
    + rewrite lookup_insert_ne by done. exists s.
      split; [done|apply State_extends_refl].
  - apply bind_Some in Hrun
      as (x & m1 & w1 & tr1 & tr2 & [= _ <- _ _] & [= _ <- _ _] & _).
    exists s. split; [done|apply State_extends_refl].
Qed.

(** X1. Nothing is ever removed or renamed: whatever operations the caller
    runs, a state that is registered stays registered under the same name
    with the same entity id; its transitions keep their indices (new ones are
    appended), and a hook that is set stays set. *)
Theorem run_ops_extends os m w (u : unit) m' w' tr k s :
  run_ops os m w = Some (u, m', w', tr) → states m !! k = Some s →
  ∃ s', states m' !! k = Some s' ∧ State_extends s s'.
Proof.
  revert m w tr s. induction os as [|o os IH]; intros m w tr s.
  - intros [= _ <- _ _] Hk. exists s. split; [done|apply State_extends_refl].
  - simpl. intros Hrun Hk. apply bind_Some in Hrun
      as ([] & m1 & w1 & tr1 & tr2 & Ho & Hos & _).
    destruct (run_op_extends _ _ _ _ _ _ _ _ _ Ho Hk) as (s1 & Hk1 & Hext1).
    destruct (IH _ _ _ _ Hos Hk1) as (s' & Hk' & Hext').
    exists s'. split; [done|]. by eapply State_extends_trans.
Qed.

(** X2. Once a current state exists, [update] is the only operation that
    changes it; and [add_state], [add_transition], [set_callback],
    [get_current_state] and [has_state] evaluate no guard, run no callback and
    leave the world of the caller as it is. *)
Theorem only_update_moves m w o (u : unit) m' w' tr :
  run_op o m w = Some (u, m', w', tr) →
  (is_update o = false → is_Some (current_state m) →
   current_state m' = current_state m) ∧
  (is_silent o = true → w' = w ∧ tr = []).
Proof.
  intros Hrun. destruct o; simpl in Hrun; (split; [intros Hu [a Hc]|intros Hs]);
    try discriminate.
  - apply bind_Some in Hrun as (x & m1 & w1 & tr1 & tr2 & Hrun & [= _ <- _ _] & _).
    destruct (add_state_inv _ _ _ _ _ _ _ _ Hrun)
      as (_ & _ & _ & [[_ ->]|[Hn ->]]); [done|]. simpl. by rewrite Hc.
  - apply bind_Some in Hrun as (x & m1 & w1 & tr1 & tr2 & Hrun & [= _ _ <- <-] & ->).
    destruct (add_state_inv _ _ _ _ _ _ _ _ Hrun) as (_ & -> & -> & _). done.
  - by destruct (add_transition_inv _ _ _ _ _ _ _ _ _ Hrun)
      as (s0 & _ & _ & _ & _ & ->).
  - by destruct (add_transition_inv _ _ _ _ _ _ _ _ _ Hrun)
      as (s0 & _ & _ & -> & -> & _).
  - by destruct (set_callback_inv _ _ _ _ _ _ _ _ _ Hrun) as (s0 & _ & _ & _ & ->).
  - by destruct (set_callback_inv _ _ _ _ _ _ _ _ _ Hrun) as (s0 & _ & -> & -> & _).
  - by destruct (start_inv _ _ _ _ _ _ Hrun) as (_ & _ & _ & _ & -> & _).
  - apply bind_Some in Hrun as (x & m1 & w1 & tr1 & tr2 & Hrun & [= _ <- _ _] & _).
    by destruct (get_current_state_inv _ _ _ _ _ _ Hrun)
      as (_ & _ & _ & _ & _ & -> & _).
  - apply bind_Some in Hrun as (x & m1 & w1 & tr1 & tr2 & Hrun & [= _ _ <- <-] & ->).
    by destruct (get_current_state_inv _ _ _ _ _ _ Hrun)
      as (_ & _ & _ & _ & _ & _ & -> & ->).
  - apply bind_Some in Hrun as (x & m1 & w1 & tr1 & tr2 & Hrun & [= _ <- _ _] & _).
    by destruct (can_transition_to_shape _ _ _ _ _ _ _ _ Hrun)
      as (a' & sa & oc & _ & _ & ->).
  - by apply bind_Some in Hrun
      as (x & m1 & w1 & tr1 & tr2 & [= _ <- _ _] & [= _ <- _ _] & _).
  - by apply bind_Some in Hrun
      as (x & m1 & w1 & tr1 & tr2 & [= _ _ <- <-] & [= _ _ <- <-] & ->).
Qed.

Lemma reachable_current_none m :
  reachable m → (current_state m = None ↔ states m = ∅).
Proof.
  intros Hreach. pose proof (wf_reachable m Hreach) as Hwf. split.
  - apply (wf_first m Hwf).
  - intros Hempty. destruct (current_state m) as [a|] eqn:Hc; [|done].
    destruct (wf_current m Hwf a Hc) as [s Hs].
    by rewrite Hempty, lookup_empty in Hs.
Qed.

(** X3. No pointer of a reachable machine dangles: [current_state] is null
    exactly when no state is registered and otherwise points to a registered
    state; every state is registered under its own name; the target of every
    transition and of every cache entry is a registered state. *)
Theorem no_dangling_pointer m :
  reachable m →
  (current_state m = None ↔ states m = ∅) ∧
  (∀ a, current_state m = Some a → is_Some (states m !! a)) ∧
  (∀ k s, states m !! k = Some s →
     name s = k ∧
     (∀ t, t ∈ transitions s → is_Some (states m !! to t)) ∧
     (∀ c, cache s = Some c → is_Some (states m !! target c))).
Proof.
  intros Hreach. pose proof (wf_reachable m Hreach) as Hwf.
  split; [by apply reachable_current_none|]. split; [apply (wf_current m Hwf)|].
  intros k s Hs. split; [by eapply wf_name|]. split.
  - intros t Ht. by eapply wf_targets.
  - intros c Hc. by eapply wf_cached_target.
Qed.

(** X4. On a reachable machine [start], [update] and [get_current_state]
    abort exactly when no state has been added; in every other case they
    return. *)
Theorem needs_a_state m w args :
  reachable m →
  (is_Some (start m w) ↔ states m ≠ ∅) ∧
  (is_Some (update args m w) ↔ states m ≠ ∅) ∧
  (is_Some (get_current_state m w) ↔ states m ≠ ∅).
Proof.
  intros Hreach. pose proof (wf_reachable m Hreach) as Hwf.
  pose proof (reachable_current_none m Hreach) as Hnone.
  assert (states m ≠ ∅ → ∃ a sa, current_state m = Some a ∧ states m !! a = Some sa)
    as Hcur.
  { intros Hne. destruct (current_state m) as [a|] eqn:Hc.
    - destruct (wf_current m Hwf a Hc) as [sa Ha]. by exists a, sa.
    - destruct Hne. by apply Hnone. }
  assert (is_Some (current_state m) → states m ≠ ∅) as Hback.
  { intros [a Hc] Hempty. apply Hnone in Hempty. congruence. }
  split; [|split]; split.
  - intros [[[[u m'] w'] tr] Hrun].
    destruct (start_inv _ _ _ _ _ _ Hrun) as (a & _ & Hc & _). by apply Hback.
  - intros Hne. destruct (Hcur Hne) as (a & sa & Hc & Ha). unfold start.
    step (deref_current_run _ m w Hc). by rewrite (State_enter_run m w a sa Ha).
  - intros [[[[u m'] w'] tr] Hrun].
    destruct (update_Some_inv _ _ _ _ Hrun) as (a & _ & Hc & _). by apply Hback.
  - intros Hne. destruct (Hcur Hne) as (a & sa & Hc & Ha).
    destruct (update_returns m w args a sa Hwf Hc Ha)
      as (oc & w1 & trd & m' & w' & tr & _ & ->). done.
  - intros [[[[n m'] w'] tr] Hrun].
    destruct (get_current_state_inv _ _ _ _ _ _ Hrun) as (a & _ & Hc & _).
    by apply Hback.
  - intros Hne. destruct (Hcur Hne) as (a & sa & Hc & Ha).
    by rewrite (get_current_state_run m w a sa Hc Ha).
Qed.

(** X5. On a reachable machine [get_current_state] is a pure read that
    returns the name under which the current state is registered: the machine
    and the world are unchanged and nothing is called. *)
Theorem get_current_state_registered m w a :
  reachable m → current_state m = Some a →
  get_current_state m w = Some (a, m, w, []).
Proof.
  intros Hreach Hc. pose proof (wf_reachable m Hreach) as Hwf.
  destruct (wf_current m Hwf a Hc) as [sa Ha].
  rewrite (get_current_state_run m w a sa Hc Ha).
  by rewrite (wf_name m Hwf a sa Ha).
Qed.

(** X6. [start] calls the [on_enter] hook of the current state (if set) with
    that state's entity id and nothing else: no [on_exit], no guard, no change
    of the machine.  It keeps no record of having run: a second [start] calls
    the hook again. *)
Theorem start_fires_on_enter m w a sa :
  current_state m = Some a → states m !! a = Some sa →
  start m w = Some (tt, m, enter_world sa w, enter_events sa (Some a)) ∧
  (start;; start) m w =
    Some (tt, m, enter_world sa (enter_world sa w),
          enter_events sa (Some a) ++ enter_events sa (Some a)).
Proof.
  intros Hc Ha.
  assert (∀ w0, start m w0 =
    Some (tt, m, enter_world sa w0, enter_events sa (Some a))) as Hstart.
  { intros w0. unfold start. step (deref_current_run _ m w0 Hc).
    by rewrite (State_enter_run m w0 a sa Ha), Hc. }
  split; [apply Hstart|]. rewrite bind_unfold, Hstart. cbv beta iota.
  by rewrite Hstart.
Qed.

(** X7. A state without outgoing transitions is absorbing: on a reachable
    machine whose current state has none, [update] evaluates no guard, runs no
    callback and leaves machine and world as they are, and
    [can_transition_to] answers false for every registered state. *)
Theorem no_transitions_absorbing m w args a sa :
  reachable m → current_state m = Some a → states m !! a = Some sa →
  transitions sa = [] →
  update args m w = Some (tt, m, w, []) ∧
  ∀ st, is_Some (states m !! st) →
        can_transition_to st args m w = Some (false, m, w, []).
Proof.
  intros Hreach Hc Ha Hts. pose proof (wf_reachable m Hreach) as Hwf.
  assert (cache sa = None) as Hcache.
  { destruct (cache sa) as [c|] eqn:Hcache; [|done].
    destruct (wf_cache m Hwf a sa Ha c Hcache) as (t & Ht & _).
    by rewrite Hts in Ht. }
  assert (∀ sel, discover sel a sa args w = Some (None, w, [])) as Hd.
  { intros sel. unfold discover, probe. by rewrite Hcache, Hts. }
  assert (with_cache m a sa None = m) as Hsame.
  { rewrite <-Hcache. by apply with_cache_same. }
  split.
  - by rewrite (update_stays m w a sa args w [] Hc Ha (Hd _)), Hsame.
  - intros st Hst.
    by rewrite (can_transition_to_discover m w a sa st args Hc Ha Hst), Hd, Hsame.
Qed.

(** X8. [update] writes only [current_state] and the cache slot of the state
    that was current when it was called: that state keeps its name, entity id,
    transitions and hooks, and every other state is left as it was, cache
    included. *)
Theorem update_frame m w args a sa m' w' tr :
  update args m w = Some (tt, m', w', tr) →
  current_state m = Some a → states m !! a = Some sa →
  (∃ oc, states m' !! a = Some (set_cache sa oc)) ∧
  (∀ k, k ≠ a → states m' !! k = states m !! k) ∧
  is_Some (current_state m').
Proof.
  intros Hrun Hc Ha.
  destruct (update_shape _ _ _ _ _ _ _ Hrun)
    as (a' & sa' & oc & Hc' & Ha' & Hst & Hcur).
  assert (a' = a) as -> by congruence. assert (sa' = sa) as -> by congruence.
  rewrite Hst. split; [exists oc; apply with_cache_lookup|].
  split; [intros k Hne; by apply with_cache_lookup_ne|].
  destruct Hcur as [->|(c & sb & _ & _ & ->)]; by eexists.
Qed.

(** * Further properties: graph construction *)

Lemma has_state_run m w st :
  has_state st m w = Some (bool_decide (is_Some (states m !! st)), m, w, []).
Proof. done. Qed.

Lemma has_state_true m w st :
  result_of (has_state st m w) = Some true ↔ is_Some (states m !! st).
Proof.
  rewrite has_state_run. unfold result_of. simpl. split.
  - intros [= Hb]. by apply bool_decide_eq_true_1 in Hb.
  - intros Hst. by rewrite bool_decide_eq_true_2.
Qed.

Lemma insert_same_state m st s :
  states m !! st = Some s →
  mkStateMachine
    (<[st := mkState (name s) (entity_id s) (transitions s)
               (on_enter s) (on_exit s) (cache s)]> (states m))
    (current_state m) = m.
Proof.
  intros Hs. destruct m as [sts cur]. simpl in *. f_equal. apply insert_id.
  rewrite Hs. by destruct s.
Qed.

(** X9. [set_callback] returns exactly when [has_state] answers true for
    the state.  It then installs each callback that is passed in its own slot
    of that state ([on_enter] in [on_enter], [on_exit] in [on_exit]) and keeps
    the content of a slot for which none is passed; nothing else changes and
    nothing is called.  So with no callback it changes nothing, and setting
    [on_enter] and [on_exit] in two calls, in either order, gives the same
    machine as setting both in one call. *)
Theorem set_callback_slots m w st enter exit :
  (is_Some (set_callback st enter exit m w) ↔
   result_of (has_state st m w) = Some true) ∧
  (∀ s, states m !! st = Some s →
   ∃ m' s',
     set_callback st enter exit m w = Some (tt, m', w, []) ∧
     states m' !! st = Some s' ∧
     on_enter s' = match enter with Some f => Some f | None => on_enter s end ∧
     on_exit s' = match exit with Some g => Some g | None => on_exit s end ∧
     name s' = name s ∧ entity_id s' = entity_id s ∧
     transitions s' = transitions s ∧ cache s' = cache s ∧
     (∀ n, n ≠ st → states m' !! n = states m !! n) ∧
     current_state m' = current_state m) ∧
  (is_Some (states m !! st) →
   set_callback st None None m w = Some (tt, m, w, []) ∧
   (set_callback st enter None;; set_callback st None exit) m w =
     set_callback st enter exit m w ∧
   (set_callback st None exit;; set_callback st enter None) m w =
     set_callback st enter exit m w).
Proof.
  rewrite has_state_true. split; [|split].
  - split.
    + intros [[[[u m'] w'] tr] Hrun]. by eapply set_callback_Some_inv.
    + intros [s Hs]. by rewrite (set_callback_run m w st enter exit s Hs).
  - intros s Hs. rewrite (set_callback_run m w st enter exit s Hs).
    eexists _, _. split; [done|]. simpl.
    split; [apply lookup_insert_eq|]. simpl.
    split; [by destruct enter|]. split; [by destruct exit|].
    repeat split. intros n Hne. by apply lookup_insert_ne.
  - intros [s Hs]. split; [|split].
    + rewrite (set_callback_run m w st None None s Hs).
      by rewrite (insert_same_state m st s Hs).
    + rewrite bind_unfold, (set_callback_run m w st enter None s Hs).
      cbv beta iota.
      erewrite set_callback_run by (simpl; apply lookup_insert_eq).
      rewrite (set_callback_run m w st enter exit s Hs). simpl.
      by rewrite insert_insert_eq.
    + rewrite bind_unfold, (set_callback_run m w st None exit s Hs).
      cbv beta iota.
      erewrite set_callback_run by (simpl; apply lookup_insert_eq).
      rewrite (set_callback_run m w st enter exit s Hs). simpl.
      by rewrite insert_insert_eq.
Qed.

(** X10. [add_transition] returns exactly when [has_state] answers true for
    both end points (which may be the same state).  It then appends the
    transition after the existing ones of [from], whatever they are, and
    changes nothing else: not the cache of [from], not another state, not
    [current_state]. *)
Theorem add_transition_requires_both m w from to_ cond :
  (is_Some (add_transition from to_ cond m w) ↔
   result_of (has_state from m w) = Some true ∧
   result_of (has_state to_ m w) = Some true) ∧
  ∀ (u : unit) m' w' tr,
    add_transition from to_ cond m w = Some (u, m', w', tr) →
    ∃ s s', states m !! from = Some s ∧ states m' !! from = Some s' ∧
            transitions s' = transitions s ++ [mkTransition to_ cond] ∧
            name s' = name s ∧ entity_id s' = entity_id s ∧
            on_enter s' = on_enter s ∧ on_exit s' = on_exit s ∧
            cache s' = cache s ∧
            (∀ k, k ≠ from → states m' !! k = states m !! k) ∧
            current_state m' = current_state m ∧ w' = w ∧ tr = [].
Proof.
  rewrite !has_state_true. split.
  - split.
    + intros [[[[u m'] w'] tr] Hrun]. by eapply add_transition_Some_inv.
    + intros [[s Hs] Hto]. by rewrite (add_transition_run m w from to_ cond s Hs Hto).
  - intros u m' w' tr Hrun.
    destruct (add_transition_inv _ _ _ _ _ _ _ _ _ Hrun)
      as (s & Hfrom & _ & -> & -> & ->).
    eexists s, _. split; [done|]. split; [simpl; apply lookup_insert_eq|].
    simpl. repeat split; try done.
    intros k Hne. by apply lookup_insert_ne.
Qed.

(** X11. [has_state] reads back what [add_state] registered: after
    [add_state n] it answers true for [n] and, for every other name, what it
    answered before; neither call aborts, whatever the machine. *)
Theorem has_state_after_add_state m w n eid :
  ∃ m1, add_state n eid m w = Some (n, m1, w, []) ∧
        ∀ n', has_state n' m1 w =
                Some (bool_decide (n' = n) || bool_decide (is_Some (states m !! n')),
                      m1, w, []).
Proof.
  destruct (states m !! n) as [s|] eqn:Hn.
  - exists m. rewrite (add_state_present m w n eid s Hn). split; [done|].
    intros n'. rewrite has_state_run. do 4 f_equal.
    destruct (decide (n' = n)) as [->|Hne].
    + by rewrite !bool_decide_eq_true_2 by (done || by eexists).
    + by rewrite (bool_decide_eq_false_2 (n' = n)) by done.
  - eexists. rewrite (add_state_fresh m w n eid Hn). split; [done|].
    intros n'. rewrite has_state_run. simpl. do 4 f_equal.
    rewrite lookup_insert. destruct (decide (n = n')) as [->|Hne].
    + by rewrite !bool_decide_eq_true_2 by (done || by eexists).
    + by rewrite (bool_decide_eq_false_2 (n' = n)) by congruence.
Qed.

(** * Further properties: scans and queries *)

Lemma scan_guards_app_found sel a eid args ts ts' i w j t w1 tr :
  scan_guards sel a eid args i ts w = (Some (j, t), w1, tr) →
  scan_guards sel a eid args i (ts ++ ts') w = (Some (j, t), w1, tr).
Proof.
  revert i w tr. induction ts as [|t0 ts IH]; intros i w tr; [done|].
  cbn [scan_guards app]. destruct (sel t0); [|by apply IH].
  destruct (condition t0 eid args w) as [[] w0]; [done|].
  destruct (scan_guards sel a eid args (S i) ts w0) as [[r w2] tr2] eqn:Hrec.
  intros [= -> -> <-]. by rewrite (IH _ _ _ Hrec).
Qed.

Lemma scan_guards_events sel a eid args ts i w r w1 tr :
  scan_guards sel a eid args i ts w = (r, w1, tr) →
  Forall (λ e, ∃ j (res : bool), e = EvGuard a j eid args res ∧
                                 i ≤ j < i + length ts) tr ∧
  length tr ≤ length ts.
Proof.
  revert i w r tr. induction ts as [|t0 ts IH]; intros i w r tr.
  - intros [= <- <- <-]. by split.
  - cbn [scan_guards]. destruct (sel t0).
    + destruct (condition t0 eid args w) as [[] w0].
      * intros [= <- <- <-]. split; [|simpl; lia].
        constructor; [|done]. exists i, true. split; [done|]. simpl. lia.
      * destruct (scan_guards sel a eid args (S i) ts w0) as [[r' w2] tr2] eqn:Hrec.
        intros [= <- <- <-]. destruct (IH _ _ _ _ Hrec) as [Hall Hlen].
        split; [|simpl; lia]. constructor.
        -- exists i, false. split; [done|]. simpl. lia.
        -- eapply Forall_impl; [done|]. intros e (j & res & -> & Hj).
           exists j, res. split; [done|]. simpl. lia.
    + intros Hrec. destruct (IH _ _ _ _ Hrec) as [Hall Hlen].
      split; [|simpl; lia]. eapply Forall_impl; [done|].
      intros e (j & res & -> & Hj). exists j, res. split; [done|]. simpl. lia.
Qed.

Lemma scan_guards_none_all sel a eid args ts i w w1 tr j t :
  scan_guards sel a eid args i ts w = (None, w1, tr) →
  ts !! j = Some t → sel t = true →
  EvGuard a (i + j) eid args false ∈ tr.
Proof.
  revert i w tr j. induction ts as [|t0 ts IH]; intros i w tr j; [done|].
  cbn [scan_guards]. destruct j as [|j]; simpl.
  - intros Hscan [= ->] Hsel. rewrite Hsel in Hscan.
    destruct (condition t eid args w) as [[] w0]; [done|].
    destruct (scan_guards sel a eid args (S i) ts w0) as [[r' w2] tr2].
    injection Hscan as _ _ <-. rewrite Nat.add_0_r. apply list_elem_of_here.
  - intros Hscan Hj Hsel. replace (i + S j) with (S i + j) by lia.
    destruct (sel t0).
    + destruct (condition t0 eid args w) as [[] w0]; [done|].
      destruct (scan_guards sel a eid args (S i) ts w0) as [[r' w2] tr2] eqn:Hrec.
      injection Hscan as -> -> <-. apply list_elem_of_further. by eapply IH.
    + by eapply IH.
Qed.

Lemma scan_guards_in_order a eid args ts i w r w1 tr j e :
  scan_guards any_target a eid args i ts w = (r, w1, tr) →
  tr !! j = Some e →
  ∃ res : bool, e = EvGuard a (i + j) eid args res ∧ j < length ts ∧
                (res = true → S j = length tr).
Proof.
  revert i w r tr j. induction ts as [|t0 ts IH]; intros i w r tr j.
  - by intros [= <- <- <-].
  - cbn [scan_guards any_target].
    destruct (condition t0 eid args w) as [[] w0].
    + intros [= <- <- <-]. destruct j as [|j]; [|done]. intros [= <-].
      exists true. rewrite Nat.add_0_r. split; [done|]. split; [simpl; lia|done].
    + destruct (scan_guards any_target a eid args (S i) ts w0)
        as [[r' w2] tr2] eqn:Hrec.
      intros [= <- <- <-]. destruct j as [|j]; simpl.
      * intros [= <-]. exists false. rewrite Nat.add_0_r.
        split; [done|]. split; [lia|done].
      * intros Hj. destruct (IH _ _ _ _ _ Hrec Hj) as (res & -> & Hlt & Hlast).
        exists res. replace (i + S j) with (S i + j) by lia.
        split; [done|]. split; [lia|]. intros Hres. by rewrite Hlast.
Qed.

Lemma discover_app sel a sa sa1 args w c w1 trd extra :
  entity_id sa1 = entity_id sa → cache sa1 = cache sa →
  transitions sa1 = transitions sa ++ extra →
  discover sel a sa args w = Some (Some c, w1, trd) →
  discover sel a sa1 args w = Some (Some c, w1, trd).
Proof.
  intros Heid Hcache Hts. unfold discover, probe. rewrite Heid, Hcache, Hts.
  destruct (cache sa) as [c0|].
  - destruct (transitions sa !! transition_idx c0) as [t|] eqn:Ht; [|done].
    rewrite (lookup_app_l_Some _ _ _ _ Ht).
    destruct (condition t (entity_id sa) args w) as [[] w0]; [done|].
    destruct (scan_guards sel a (entity_id sa) args 0 (transitions sa) w0)
      as [[[[j t']|] w2] tr2] eqn:Hscan; [|done].
    by rewrite (scan_guards_app_found _ _ _ _ _ extra _ _ _ _ _ _ Hscan).
  - destruct (scan_guards sel a (entity_id sa) args 0 (transitions sa) w)
      as [[[[j t']|] w2] tr2] eqn:Hscan; [|done].
    by rewrite (scan_guards_app_found _ _ _ _ _ extra _ _ _ _ _ _ Hscan).
Qed.

(** X12. A transition appended by [add_transition] has the lowest priority:
    when an [update] on the machine before the addition takes a transition,
    the same [update] on the machine after it evaluates the same guards, runs
    the same callbacks and ends in the same current state. *)
Theorem appended_transition_lowest_priority m w0 w args a sa to_ cond
    m1 w0' tr0 m' w' tr i :
  current_state m = Some a → states m !! a = Some sa →
  add_transition a to_ cond m w0 = Some (tt, m1, w0', tr0) →
  update args m w = Some (tt, m', w', tr) →
  EvGuard a i (entity_id sa) args true ∈ tr →
  ∃ m1', update args m1 w = Some (tt, m1', w', tr) ∧
         current_state m1' = current_state m'.
Proof.
  intros Hc Ha Hadd Hupd Hin.
  destruct (add_transition_inv _ _ _ _ _ _ _ _ _ Hadd)
    as (s & Hfrom & _ & _ & _ & ->).
  assert (s = sa) as -> by congruence.
  set (sa1 := mkState (name sa) (entity_id sa)
                (transitions sa ++ [mkTransition to_ cond])
                (on_enter sa) (on_exit sa) (cache sa)).
  set (m1 := mkStateMachine (<[a := sa1]> (states m)) (current_state m)).
  assert (states m1 !! a = Some sa1) as Ha1 by apply lookup_insert_eq.
  destruct (discover any_target a sa args w) as [[[[c|] w1] trd]|] eqn:Hd.
  - destruct (update_taken_inv m w a sa args c w1 trd m' w' tr Hc Ha Hd Hupd)
      as (sb & Hb & -> & -> & ->).
    pose proof (discover_app any_target a sa sa1 args w c w1 trd
                  [mkTransition to_ cond] eq_refl eq_refl eq_refl Hd) as Hd1.
    destruct (decide (a = target c)) as [Heq|Hne].
    + assert (sb = sa) as -> by congruence.
      assert (states m1 !! target c = Some sa1) as Hb1 by (by rewrite <-Heq).
      eexists. by rewrite (update_taken m1 w a sa1 args c w1 trd sa1 Hc Ha1 Hb1 Hd1).
    + assert (states m1 !! target c = Some sb) as Hb1.
      { unfold m1. simpl. by rewrite lookup_insert_ne. }
      eexists. by rewrite (update_taken m1 w a sa1 args c w1 trd sb Hc Ha1 Hb1 Hd1).
  - rewrite (update_stays m w a sa args w1 trd Hc Ha Hd) in Hupd.
    injection Hupd as <- <- <-.
    pose proof (discover_none _ _ _ _ _ _ _ Hd) as Hall.
    rewrite Forall_forall in Hall. by destruct (Hall _ Hin) as [??].
  - by rewrite (update_discover m w a sa args Hc Ha), Hd in Hupd.
Qed.

Lemma discover_events sel a sa args w oc w1 tr :
  discover sel a sa args w = Some (oc, w1, tr) →
  Forall (λ e, ∃ j (res : bool), e = EvGuard a j (entity_id sa) args res ∧
                                 j < length (transitions sa)) tr ∧
  length tr ≤ S (length (transitions sa)).
Proof.
  unfold discover.
  destruct (probe a sa (entity_id sa) args w) as [[[hit w0] tr0]|] eqn:Hp; [|done].
  assert (Forall (λ e, ∃ j (res : bool), e = EvGuard a j (entity_id sa) args res ∧
                         j < length (transitions sa)) tr0 ∧ length tr0 ≤ 1)
    as [Hall0 Hlen0].
  { destruct (probe_guards_only _ _ _ _ _ _ _ _ Hp)
      as [(-> & _)|(c & t & _ & Ht & _ & ->)]; [by split; [|simpl; lia]|].
    split; [|done]. constructor; [|done]. eexists _, _. split; [done|].
    by eapply lookup_lt_Some. }
  destruct hit.
  - destruct (cache sa); [|done]. intros [= <- <- <-]. split; [done|lia].
  - destruct (scan_guards sel a (entity_id sa) args 0 (transitions sa) w0)
      as [[r w2] tr2] eqn:Hscan. intros [= <- <- <-].
    destruct (scan_guards_events _ _ _ _ _ _ _ _ _ _ Hscan) as [Hall Hlen].
    split; [|rewrite length_app; lia]. apply Forall_app. split; [done|].
    eapply Forall_impl; [done|]. intros e (j & res & -> & Hj).
    exists j, res. split; [done|lia].
Qed.

(** X13. Every guard that an [update] call evaluates belongs to a transition
    of the state that is current when the call starts, and is passed that
    state's entity id and the arguments of the call.  The call evaluates at
    most one guard more than that state has transitions (the cached guard may
    be evaluated by the probe and again by the scan) and runs at most two
    callbacks. *)
Theorem update_guard_calls m w args a sa m' w' tr :
  current_state m = Some a → states m !! a = Some sa →
  update args m w = Some (tt, m', w', tr) →
  (∀ e, e ∈ guards_of tr →
     ∃ j (res : bool), e = EvGuard a j (entity_id sa) args res ∧
                       j < length (transitions sa)) ∧
  length (guards_of tr) ≤ S (length (transitions sa)) ∧
  length (callbacks_of tr) ≤ 2.
Proof.
  intros Hc Ha Hupd.
  destruct (discover any_target a sa args w) as [[[oc w1] trd]|] eqn:Hd.
  - destruct (discover_events _ _ _ _ _ _ _ _ Hd) as [Hall Hlen].
    destruct (discover_guards_only _ _ _ _ _ _ _ _ Hd) as [Hg Hcb].
    rewrite Forall_forall in Hall.
    destruct oc as [c|].
    + destruct (update_taken_inv m w a sa args c w1 trd m' w' tr Hc Ha Hd Hupd)
        as (sb & Hb & _ & _ & ->).
      destruct (hook_events_callbacks_only sa sb (Some a) (Some (target c)))
        as [Hg' Hcb'].
      rewrite guards_of_app, callbacks_of_app, Hg, Hcb, Hg', Hcb', app_nil_r.
      split; [done|]. split; [done|]. simpl.
      unfold exit_events, enter_events.
      destruct (on_exit sa), (on_enter sb); simpl; lia.
    + rewrite (update_stays m w a sa args w1 trd Hc Ha Hd) in Hupd.
      injection Hupd as _ _ <-. rewrite Hg, Hcb. split; [done|].
      split; [done|simpl; lia].
  - by rewrite (update_discover m w a sa args Hc Ha), Hd in Hupd.
Qed.

(** X14. What an answer of [can_transition_to] means on a reachable machine.
    True: the current state has a transition to the queried state whose guard
    returned true during the call.  False, when the cache slot of the current
    state was empty: the guard of every transition to the queried state was
    evaluated during the call and returned false. *)
Theorem can_transition_to_answer m w st args a sa (r : bool) m' w' tr :
  reachable m → current_state m = Some a → states m !! a = Some sa →
  can_transition_to st args m w = Some (r, m', w', tr) →
  (r = true →
   ∃ i t, transitions sa !! i = Some t ∧ to t = st ∧
          EvGuard a i (entity_id sa) args true ∈ tr) ∧
  (r = false → cache sa = None →
   ∀ i t, transitions sa !! i = Some t → to t = st →
          EvGuard a i (entity_id sa) args false ∈ tr).
Proof.
  intros Hreach Hc Ha Hcan. pose proof (wf_reachable m Hreach) as Hwf.
  destruct (can_transition_to_Some_inv _ _ _ _ _ Hcan) as (_ & _ & _ & _ & Hst).
  rewrite (can_transition_to_discover m w a sa st args Hc Ha Hst) in Hcan.
  destruct (discover (targets st) a sa args w) as [[[[c|] w1] trd]|] eqn:Hd;
    [| |done].
  - injection Hcan as <- _ _ <-. split.
    + intros Htgt. apply bool_decide_eq_true_1 in Htgt.
      destruct (discover_consistent _ _ _ _ _ _ _ _ (wf_cache m Hwf a sa Ha) Hd)
        as (t & w0 & Ht & Hto & _).
      destruct (discover_some _ _ _ _ _ _ _ _ Hd) as (pre & -> & _).
      exists (transition_idx c), t. split; [done|]. split; [congruence|].
      rewrite elem_of_app, list_elem_of_singleton. by right.
    + intros Hfalse Hcache. apply bool_decide_eq_false_1 in Hfalse.
      assert (probe a sa (entity_id sa) args w = Some (false, w, [])) as Hp
        by (unfold probe; by rewrite Hcache).
      destruct (discover_after_miss _ _ _ _ _ _ _ _ _ _ Hp Hd)
        as (t & _ & Hceq & Hsel).
      apply bool_decide_eq_true_1 in Hsel. destruct Hfalse.
      by rewrite Hceq.
  - injection Hcan as <- _ _ <-. split; [done|]. intros _ Hcache i t Hi Hto.
    unfold discover, probe in Hd. rewrite Hcache in Hd.
    destruct (scan_guards (targets st) a (entity_id sa) args 0 (transitions sa) w)
      as [[[[j t']|] w2] tr2] eqn:Hscan; [done|].
    injection Hd as _ <-. simpl.
    apply (scan_guards_none_all _ _ _ _ _ 0 _ _ _ i t Hscan Hi).
    unfold targets. by apply bool_decide_eq_true_2.
Qed.

(** X15. With guards that depend on the entity id and the arguments only, a
    true answer of [can_transition_to] on a reachable machine is stable:
    asked again with the same arguments it answers true, evaluates the cached
    guard only and leaves the machine as the first call left it. *)
Theorem can_transition_to_again m w st args a sa m1 w1 tr1 :
  reachable m → current_state m = Some a → states m !! a = Some sa →
  (∀ t, t ∈ transitions sa → deterministic (condition t)) →
  can_transition_to st args m w = Some (true, m1, w1, tr1) →
  ∃ i w2, can_transition_to st args m1 w1 =
            Some (true, m1, w2, [EvGuard a i (entity_id sa) args true]).
Proof.
  intros Hreach Hc Ha Hdet Hcan. pose proof (wf_reachable m Hreach) as Hwf.
  destruct (can_transition_to_Some_inv _ _ _ _ _ Hcan) as (_ & _ & _ & _ & Hst).
  rewrite (can_transition_to_discover m w a sa st args Hc Ha Hst) in Hcan.
  destruct (discover (targets st) a sa args w) as [[[[c|] w0] tr0]|] eqn:Hd;
    [| |done]; [|by injection Hcan].
  injection Hcan as Htgt <- <- <-.
  destruct (discover_consistent _ _ _ _ _ _ _ _ (wf_cache m Hwf a sa Ha) Hd)
    as (t & w' & Ht & Hto & Hcond).
  assert ((condition t (entity_id sa) args w0).1 = true) as Htrue.
  { rewrite (Hdet t (list_elem_of_lookup_2 _ _ _ Ht) _ _ w0 w'). by rewrite Hcond. }
  destruct (condition t (entity_id sa) args w0) as [res w2] eqn:Hcond0.
  simpl in Htrue. subst res.
  exists (transition_idx c), w2.
  rewrite (can_transition_to_discover _ w0 a (set_cache sa (Some c)) st args).
  - unfold discover, probe. simpl. rewrite Ht, Hcond0, Htgt.
    by rewrite with_cache_twice.
  - done.
  - apply with_cache_lookup.
  - unfold with_cache. simpl. rewrite lookup_insert.
    destruct (decide (a = st)); [by eexists|done].
Qed.

(** X16. When the cache slot of the current state is empty, [update] scans
    in insertion order without skipping: the j-th guard it evaluates is that
    of transition j, and a guard that returns true is the last one
    evaluated. *)
Theorem update_scans_in_order m w args a sa m' w' tr j e :
  current_state m = Some a → states m !! a = Some sa → cache sa = None →
  update args m w = Some (tt, m', w', tr) →
  guards_of tr !! j = Some e →
  ∃ res : bool, e = EvGuard a j (entity_id sa) args res ∧
                j < length (transitions sa) ∧
                (res = true → S j = length (guards_of tr)).
Proof.
  intros Hc Ha Hcache Hupd Hj.
  destruct (scan_guards any_target a (entity_id sa) args 0 (transitions sa) w)
    as [[r w2] tr2] eqn:Hscan.
  assert (discover any_target a sa args w =
    Some (match r with
          | Some (i, t) => Some (mkTransitionCache (to t) i)
          | None => None
          end, w2, tr2)) as Hd.
  { unfold discover, probe. by rewrite Hcache, Hscan. }
  assert (guards_of tr = tr2) as Hg.
  { destruct (discover_guards_only _ _ _ _ _ _ _ _ Hd) as [Hg _].
    destruct r as [[i t]|].
    - destruct (update_taken_inv m w a sa args _ w2 tr2 m' w' tr Hc Ha Hd Hupd)
        as (sb & Hb & _ & _ & ->).
      destruct (hook_events_callbacks_only sa sb (Some a)
                  (Some (target (mkTransitionCache (to t) i)))) as [Hg' _].
      by rewrite guards_of_app, Hg, Hg', app_nil_r.
    - rewrite (update_stays m w a sa args w2 tr2 Hc Ha Hd) in Hupd.
      by injection Hupd as _ _ <-. }
  rewrite Hg in *.
  by apply (scan_guards_in_order _ _ _ _ 0 _ _ _ _ j e Hscan Hj).
Qed.

(** * The scan of [can_transition_to] against the scan of [update] *)







End facts.

(** * The example machines *)

Lemma main_machine_reachable : reachable main_machine.
Proof.
  apply (reachable_run_ops main_setup empty_machine [] tt main_machine [] []);
    [constructor|]. vm_compute. reflexivity.
Qed.

Lemma main_machine_walking_reachable : reachable main_machine_walking.
Proof.
  apply (reachable_step main_machine (OpUpdate speed_0_2) [] tt _
           ["Checking IDLE->WALKING"; "Entered WALKING"]
           [EvGuard IDLE 0 1%N speed_0_2 true; EvEnter WALKING 1%N (Some WALKING)]);
    [apply main_machine_reachable|]. vm_compute. reflexivity.
Qed.

Lemma variant_machine_reachable : reachable variant_machine.
Proof.
  apply (reachable_run_ops variant_setup empty_machine [] tt variant_machine [] []);
    [constructor|]. vm_compute. reflexivity.
Qed.

Lemma variant_machine_queried_reachable : reachable variant_machine_queried.
Proof.
  apply (reachable_step variant_machine (OpCanTransitionTo RUNNING speed_6_0) [] tt _
           ["Checking IDLE->RUNNING"] [EvGuard IDLE 1 1%N speed_6_0 true]);
    [apply variant_machine_reachable|]. vm_compute. reflexivity.
Qed.

Lemma variant_machine_walking_reachable : reachable variant_machine_walking.
Proof.
  apply (reachable_step variant_machine (OpUpdate speed_0_2) [] tt _
           ["Checking IDLE->WALKING"; "Entered WALKING"]
           [EvGuard IDLE 0 1%N speed_0_2 true; EvEnter WALKING 2%N (Some WALKING)]);
    [apply variant_machine_reachable|]. vm_compute. reflexivity.
Qed.

Lemma faster_than_deterministic limit line : deterministic (faster_than limit line).
Proof. by intros eid speed out out'. Qed.

Lemma variant_machine_states k :
  states variant_machine !! k =
    Some match k with
         | IDLE => variant_idle
         | WALKING => variant_walking
         | RUNNING => variant_running
         end.
Proof. destruct k; vm_compute; reflexivity. Qed.

Lemma variant_machine_deterministic k s t :
  states variant_machine !! k = Some s → t ∈ transitions s →
  deterministic (condition t).
Proof.
  rewrite variant_machine_states. intros [= <-] Ht.
  destruct k; repeat (apply elem_of_cons in Ht as [->|Ht]);
    try (by apply elem_of_nil in Ht); apply faster_than_deterministic.
Qed.

Lemma main_first_update :
  update speed_0_2 main_machine [] =
    Some (tt, main_machine_walking,
          ["Checking IDLE->WALKING"; "Entered WALKING"],
          [EvGuard IDLE 0 1%N speed_0_2 true; EvEnter WALKING 1%N (Some WALKING)]).
Proof. vm_compute. reflexivity. Qed.

Lemma main_second_update (out : Stdout) :
  update speed_0_2 main_machine_walking out =
    Some (tt, with_cache main_machine_walking WALKING main_walking None,
          out ++ ["Checking WALKING->RUNNING"],
          [EvGuard WALKING 0 1%N speed_0_2 false]).
Proof.
  rewrite (update_stays main_machine_walking out WALKING main_walking speed_0_2
             (out ++ ["Checking WALKING->RUNNING"])
             [EvGuard WALKING 0 1%N speed_0_2 false]); reflexivity.
Qed.

Lemma main_third_update :
  update speed_6_0 main_machine_walking [] =
    Some (tt,
          with_current
            (with_cache main_machine_walking WALKING main_walking
               (Some (mkTransitionCache RUNNING 0))) RUNNING,
          ["Checking WALKING->RUNNING"; "Exited WALKING state";
           "Entered RUNNING state"],
          [EvGuard WALKING 0 1%N speed_6_0 true;
           EvExit WALKING 1%N (Some WALKING);
           EvEnter RUNNING 1%N (Some RUNNING)]).
Proof. vm_compute. reflexivity. Qed.

Lemma variant_query :
  can_transition_to RUNNING speed_6_0 variant_machine [] =
    Some (true, variant_machine_queried, ["Checking IDLE->RUNNING"],
          [EvGuard IDLE 1 1%N speed_6_0 true]).
Proof. vm_compute. reflexivity. Qed.

Lemma variant_update :
  update speed_6_0 variant_machine [] =
    Some (tt,
          with_current
            (with_cache variant_machine IDLE variant_idle
               (Some (mkTransitionCache WALKING 0))) WALKING,
          ["Checking IDLE->WALKING"; "Entered WALKING"],
          [EvGuard IDLE 0 1%N speed_6_0 true; EvEnter WALKING 2%N (Some WALKING)]).
Proof. vm_compute. reflexivity. Qed.

Lemma variant_update_after_query :
  update speed_6_0 variant_machine_queried [] =
    Some (tt, with_current variant_machine_queried RUNNING,
          ["Checking IDLE->RUNNING"],
          [EvGuard IDLE 1 1%N speed_6_0 true]).
Proof. vm_compute. reflexivity. Qed.

(** * The properties on the example machines *)

Lemma add_state_idempotent_witness :
  add_state IDLE 7%N main_machine [] = Some (IDLE, main_machine, [], []) ∧
  ∃ m1, add_state IDLE 7%N (empty_machine : @StateMachine PlayerState _ _ Speed Stdout) []
          = Some (IDLE, m1, [], []) ∧
        current_state m1 = Some IDLE.
Proof.
  destruct (add_state_idempotent main_machine ([] : Stdout) IDLE 7%N 9%N)
    as (Hpresent & _ & _).
  destruct (add_state_idempotent
              (empty_machine : @StateMachine PlayerState _ _ Speed Stdout)
              ([] : Stdout) IDLE 7%N 9%N)
    as (_ & _ & m1 & Hfirst & Hcur & _).
  split; [apply (Hpresent main_idle); reflexivity|].
  exists m1. by split.
Defined.

Lemma cache_consistency_invariant_witness :
  ∃ t, transitions (set_cache main_idle (Some (mkTransitionCache WALKING 0))) !! 0
         = Some t ∧
       to t = WALKING.
Proof.
  apply (cache_consistency_invariant main_machine_walking IDLE
           (set_cache main_idle (Some (mkTransitionCache WALKING 0)))
           (mkTransitionCache WALKING 0)).
  - apply main_machine_walking_reachable.
  - vm_compute. reflexivity.
  - reflexivity.
Defined.

Lemma update_cache_probe_witness :
  update speed_6_0 variant_machine_queried [] =
    Some (tt, with_current variant_machine_queried RUNNING,
          ["Checking IDLE->RUNNING"],
          [EvGuard IDLE 1 1%N speed_6_0 true]).
Proof.
  apply (update_cache_probe variant_machine_queried [] speed_6_0 IDLE
           (set_cache variant_idle (Some (mkTransitionCache RUNNING 1)))
           (mkTransitionCache RUNNING 1)
           (mkTransition RUNNING idle_to_running)
           eq_refl eq_refl eq_refl eq_refl variant_running).
  vm_compute. reflexivity.
Defined.

Lemma update_no_match_witness :
  ∃ m' w' tr,
    update speed_0_2 main_machine_walking [] = Some (tt, m', w', tr) ∧
    current_state m' = Some WALKING ∧ callbacks_of tr = [] ∧
    ∃ sa', states m' !! WALKING = Some sa' ∧ cache sa' = None.
Proof.
  destruct (update_no_match main_machine_walking [] speed_0_2
              main_machine_walking_reachable (mk_is_Some _ _ eq_refl))
    as (m' & w' & tr & Hrun & Hstable).
  exists m', w', tr. split; [done|].
  rewrite (main_second_update []) in Hrun. injection Hrun as <- <- <-.
  destruct Hstable as (Hcur & Hcb & a & sa' & Hc & Ha & Hcache).
  { intros o i eid args Hin. apply list_elem_of_singleton in Hin. discriminate. }
  split; [done|]. split; [done|]. exists sa'.
  injection Hc as <-. by split.
Defined.

Lemma can_transition_to_frame_witness :
  ∃ (r : bool) m' w' tr,
    can_transition_to RUNNING speed_6_0 variant_machine [] = Some (r, m', w', tr) ∧
    current_state m' = current_state variant_machine ∧
    callbacks_of tr = [].
Proof.
  destruct (can_transition_to_frame variant_machine [] RUNNING speed_6_0
              variant_machine_reachable (mk_is_Some _ _ eq_refl)
              (mk_is_Some _ _ (variant_machine_states RUNNING)))
    as (r & m' & w' & tr & Hrun & Hcur & _ & Hcb & _).
  by exists r, m', w', tr.
Defined.


Lemma can_transition_to_then_update_witness :
  ∃ m2 w2 tr2,
    update speed_6_0 variant_machine_queried ["Checking IDLE->RUNNING"] =
      Some (tt, m2, w2, tr2) ∧
    current_state m2 = Some RUNNING ∧
    result_of (get_current_state m2 w2) = Some RUNNING.
Proof.
  apply (can_transition_to_then_update variant_machine [] RUNNING speed_6_0
           variant_machine_queried ["Checking IDLE->RUNNING"]
           [EvGuard IDLE 1 1%N speed_6_0 true]).
  - apply variant_machine_reachable.
  - apply variant_machine_deterministic.
  - apply variant_query.
Defined.

Lemma update_first_match_on_scan_witness :
  ∃ m' w' tr sa',
    update speed_6_0 variant_machine [] = Some (tt, m', w', tr) ∧
    current_state m' = Some WALKING ∧
    states m' !! IDLE = Some sa' ∧
    cache sa' = Some (mkTransitionCache WALKING 0).
Proof.
  apply (update_first_match_on_scan variant_machine [] speed_6_0 IDLE variant_idle
           (with_cache variant_machine IDLE variant_idle None) [] []
           0 (mkTransition WALKING idle_to_walking)).
  - apply variant_machine_reachable.
  - reflexivity.
  - vm_compute. reflexivity.
  - vm_compute. reflexivity.
  - reflexivity.
  - intros w. reflexivity.
  - intros j tj Hj. lia.
Defined.

Lemma cache_hit_after_self_transition_witness :
  ∃ m2 w2 tr2,
    update speed_0_2
      (with_current
         (with_cache variant_machine_walking WALKING variant_walking
            (Some (mkTransitionCache WALKING 0))) WALKING)
      ["Checking WALKING->WALKING"; "Exited WALKING state"; "Entered WALKING"] =
      Some (tt, m2, w2, tr2) ∧
    guards_of tr2 = [EvGuard WALKING 0 2%N speed_0_2 true] ∧
    current_state m2 = Some WALKING.
Proof.
  destruct (cache_hit_after_self_transition variant_machine_walking [] speed_0_2
              speed_0_2 WALKING variant_walking 0
              (mkTransition WALKING keeps_walking)
              (with_cache variant_machine_walking WALKING variant_walking None) [] []
              (with_current
                 (with_cache variant_machine_walking WALKING variant_walking
                    (Some (mkTransitionCache WALKING 0))) WALKING)
              ["Checking WALKING->WALKING"; "Exited WALKING state"; "Entered WALKING"]
              [EvGuard WALKING 0 2%N speed_0_2 true;
               EvExit WALKING 2%N (Some WALKING);
               EvEnter WALKING 2%N (Some WALKING)])
    as [_ Hnext].
  - reflexivity.
  - vm_compute. reflexivity.
  - reflexivity.
  - vm_compute. reflexivity.
  - vm_compute. reflexivity.
  - apply list_elem_of_here.
  - apply Hnext; reflexivity.
Defined.


(** * Where the specification's wording fails *)

(** C1 as stated fails on the variant once [can_transition_to(RUNNING, 6.0)]
    has filled the cache of [IDLE]: both guards of [IDLE] hold at 6.0, the
    transition to [WALKING] was added first, and [update(6.0)] moves to
    [RUNNING]. *)
Lemma first_match_priority_counterexample :
  reachable variant_machine_queried ∧
  ¬ first_match_priority variant_machine_queried [] speed_6_0.
Proof.
  split; [apply variant_machine_queried_reachable|]. intros Hclaim.
  destruct (Hclaim IDLE
              (set_cache variant_idle (Some (mkTransitionCache RUNNING 1)))
              0 1 (mkTransition WALKING idle_to_walking)
              (mkTransition RUNNING idle_to_running))
    as (m' & w' & tr & Hupd & Hcur).
  - reflexivity.
  - vm_compute. reflexivity.
  - lia.
  - reflexivity.
  - reflexivity.
  - intros w. reflexivity.
  - intros w. reflexivity.
  - intros k tk Hk. lia.
  - rewrite variant_update_after_query in Hupd. injection Hupd as <- _ _.
    discriminate Hcur.
Qed.

(** C2 as stated fails on the program of [main.cpp]: the first [update(0.2)]
    takes [IDLE -> WALKING] by a full scan; the second [update(0.2)] finds the
    cache of [WALKING] empty, evaluates the guard of [WALKING -> RUNNING] in a
    full scan and makes no transition. *)
Lemma cache_hit_after_scan_counterexample :
  reachable main_machine ∧
  ¬ cache_hit_after_scan main_machine [] speed_0_2 speed_0_2.
Proof.
  split; [apply main_machine_reachable|]. intros Hclaim.
  destruct (Hclaim IDLE main_idle 0 (mkTransition WALKING idle_to_walking)
              (with_cache main_machine IDLE main_idle None) [] []
              main_machine_walking
              ["Checking IDLE->WALKING"; "Entered WALKING"]
              [EvGuard IDLE 0 1%N speed_0_2 true; EvEnter WALKING 1%N (Some WALKING)])
    as (m2 & w2 & tr2 & Hupd & Hguards & Hcur).
  - reflexivity.
  - vm_compute. reflexivity.
  - reflexivity.
  - vm_compute. reflexivity.
  - apply main_first_update.
  - apply list_elem_of_here.
  - reflexivity.
  - rewrite main_second_update in Hupd. injection Hupd as <- <- <-.
    discriminate Hguards.
Qed.


(** * The further properties on the example machines *)

Lemma main_machine_running_reachable : reachable main_machine_running.
Proof.
  apply (reachable_step main_machine_walking (OpUpdate speed_6_0) [] tt _
           ["Checking WALKING->RUNNING"; "Exited WALKING state";
            "Entered RUNNING state"]
           [EvGuard WALKING 0 1%N speed_6_0 true;
            EvExit WALKING 1%N (Some WALKING);
            EvEnter RUNNING 1%N (Some RUNNING)]);
    [apply main_machine_walking_reachable|apply main_third_update].
Qed.

Lemma run_ops_extends_witness :
  ∃ m' w' tr s',
    run_ops [OpAddTransition IDLE RUNNING idle_to_running;
             OpSetCallback IDLE (Some (print "Entered IDLE")) None;
             OpUpdate speed_0_2] main_machine [] = Some (tt, m', w', tr) ∧
    states m' !! IDLE = Some s' ∧ State_extends main_idle s'.
Proof.
  destruct (run_ops [OpAddTransition IDLE RUNNING idle_to_running;
                     OpSetCallback IDLE (Some (print "Entered IDLE")) None;
                     OpUpdate speed_0_2] main_machine [])
    as [[[[[] m'] w'] tr]|] eqn:Hrun.
  - destruct (run_ops_extends _ _ _ _ _ _ _ IDLE main_idle Hrun eq_refl)
      as (s' & Hs' & Hext).
    by exists m', w', tr, s'.
  - vm_compute in Hrun. discriminate Hrun.
Defined.

Lemma only_update_moves_witness :
  current_state variant_machine_queried = current_state variant_machine.
Proof.
  destruct (only_update_moves variant_machine [] (OpCanTransitionTo RUNNING speed_6_0)
              tt variant_machine_queried ["Checking IDLE->RUNNING"]
              [EvGuard IDLE 1 1%N speed_6_0 true]) as [Hcur _].
  - vm_compute. reflexivity.
  - apply Hcur; [reflexivity|by eexists].
Defined.

Lemma no_dangling_pointer_witness :
  is_Some (states main_machine_walking !! WALKING) ∧
  ∀ k s, states main_machine_walking !! k = Some s → name s = k.
Proof.
  destruct (no_dangling_pointer main_machine_walking main_machine_walking_reachable)
    as (_ & Hcur & Hstates).
  split; [by apply Hcur|]. intros k s Hs. by destruct (Hstates k s Hs).
Defined.

Lemma needs_a_state_witness :
  is_Some (update speed_0_2 main_machine []) ∧
  ¬ is_Some (start (empty_machine : @StateMachine PlayerState _ _ Speed Stdout) []).
Proof.
  destruct (needs_a_state main_machine [] speed_0_2 main_machine_reachable)
    as (_ & Hupd & _).
  destruct (needs_a_state
              (empty_machine : @StateMachine PlayerState _ _ Speed Stdout)
              [] speed_0_2 (reachable_empty)) as (Hstart & _ & _).
  split.
  - apply Hupd. intros Hempty.
    assert (states main_machine !! IDLE = Some main_idle) as Hs by reflexivity.
    rewrite Hempty in Hs. discriminate Hs.
  - intros Hsome. by apply Hstart in Hsome.
Defined.

Lemma get_current_state_registered_witness :
  get_current_state main_machine_running ["Entered RUNNING state"] =
    Some (RUNNING, main_machine_running, ["Entered RUNNING state"], []).
Proof.
  apply (get_current_state_registered main_machine_running _ RUNNING
           main_machine_running_reachable eq_refl).
Defined.

Lemma start_fires_on_enter_witness :
  start main_machine_walking [] =
    Some (tt, main_machine_walking, ["Entered WALKING"],
          [EvEnter WALKING 1%N (Some WALKING)]).
Proof.
  destruct (start_fires_on_enter main_machine_walking [] WALKING main_walking
              eq_refl eq_refl) as [Hstart _].
  exact Hstart.
Defined.

Lemma no_transitions_absorbing_witness :
  update speed_6_0 main_machine_running [] = Some (tt, main_machine_running, [], []).
Proof.
  destruct (no_transitions_absorbing main_machine_running [] speed_6_0 RUNNING
              main_running main_machine_running_reachable eq_refl eq_refl eq_refl)
    as [Hupd _].
  exact Hupd.
Defined.

Lemma update_frame_witness :
  (∃ oc, states main_machine_walking !! IDLE = Some (set_cache main_idle oc)) ∧
  ∀ k, k ≠ IDLE → states main_machine_walking !! k = states main_machine !! k.
Proof.
  destruct (update_frame main_machine [] speed_0_2 IDLE main_idle
              main_machine_walking _ _ main_first_update eq_refl eq_refl)
    as (Hcur & Hframe & _).
  by split.
Defined.

Lemma set_callback_slots_witness :
  ∃ m' s',
    set_callback WALKING (Some (print "Walking again")) None main_machine [] =
      Some (tt, m', [], []) ∧
    states m' !! WALKING = Some s' ∧
    on_enter s' = Some (print "Walking again") ∧
    on_exit s' = Some (print "Exited WALKING state").
Proof.
  destruct (set_callback_slots main_machine ([] : Stdout) WALKING
              (Some (print "Walking again")) None) as (_ & Hslots & _).
  destruct (Hslots main_walking eq_refl)
    as (m' & s' & Hrun & Hs' & Henter & Hexit & _).
  by exists m', s'.
Defined.

Lemma add_transition_requires_both_witness :
  is_Some (add_transition IDLE RUNNING idle_to_running main_machine []) ∧
  ¬ is_Some (add_transition IDLE RUNNING idle_to_running
               (empty_machine : @StateMachine PlayerState _ _ Speed Stdout) []).
Proof.
  destruct (add_transition_requires_both main_machine ([] : Stdout) IDLE RUNNING
              idle_to_running) as [Hsome _].
  destruct (add_transition_requires_both
              (empty_machine : @StateMachine PlayerState _ _ Speed Stdout)
              ([] : Stdout) IDLE RUNNING idle_to_running) as [Hnone _].
  split.
  - apply Hsome. split; vm_compute; reflexivity.
  - intros Hrun. apply Hnone in Hrun as [Hfrom _]. vm_compute in Hfrom.
    discriminate Hfrom.
Defined.

Lemma appended_transition_lowest_priority_witness :
  ∃ m1', update speed_6_0 main_machine_more [] =
           Some (tt, m1', ["Checking IDLE->WALKING"; "Entered WALKING"],
                 [EvGuard IDLE 0 1%N speed_6_0 true;
                  EvEnter WALKING 1%N (Some WALKING)]) ∧
         current_state m1' = Some WALKING.
Proof.
  apply (appended_transition_lowest_priority main_machine [] [] speed_6_0 IDLE
           main_idle RUNNING idle_to_running main_machine_more [] []
           (with_current
              (with_cache main_machine IDLE main_idle
                 (Some (mkTransitionCache WALKING 0))) WALKING)
           _ _ 0).
  - reflexivity.
  - reflexivity.
  - vm_compute. reflexivity.
  - vm_compute. reflexivity.
  - apply list_elem_of_here.
Defined.

Lemma update_guard_calls_witness :
  length (guards_of [EvGuard WALKING 0 1%N speed_6_0 true;
                     EvExit WALKING 1%N (Some WALKING);
                     EvEnter RUNNING 1%N (Some RUNNING)]) ≤ 2 ∧
  length (callbacks_of [EvGuard WALKING 0 1%N speed_6_0 true;
                        EvExit WALKING 1%N (Some WALKING);
                        EvEnter RUNNING 1%N (Some RUNNING)]) ≤ 2.
Proof.
  destruct (update_guard_calls main_machine_walking [] speed_6_0 WALKING
              main_walking _ _ _ eq_refl eq_refl main_third_update)
    as (_ & Hguards & Hcallbacks).
  by split.
Defined.

Lemma can_transition_to_answer_witness :
  ∃ i t, transitions variant_idle !! i = Some t ∧ to t = RUNNING ∧
         EvGuard IDLE i 1%N speed_6_0 true ∈ [EvGuard IDLE 1 1%N speed_6_0 true].
Proof.
  destruct (can_transition_to_answer variant_machine [] RUNNING speed_6_0 IDLE
              variant_idle true _ _ _ variant_machine_reachable eq_refl eq_refl
              variant_query) as [Htrue _].
  by apply Htrue.
Defined.

Lemma can_transition_to_again_witness :
  ∃ i w2, can_transition_to RUNNING speed_6_0 variant_machine_queried
            ["Checking IDLE->RUNNING"] =
            Some (true, variant_machine_queried, w2,
                  [EvGuard IDLE i 1%N speed_6_0 true]).
Proof.
  apply (can_transition_to_again variant_machine [] RUNNING speed_6_0 IDLE
           variant_idle variant_machine_queried ["Checking IDLE->RUNNING"]
           [EvGuard IDLE 1 1%N speed_6_0 true]
           variant_machine_reachable eq_refl eq_refl).
  - intros t Ht.
    apply (variant_machine_deterministic IDLE variant_idle t eq_refl Ht).
  - apply variant_query.
Defined.

Lemma update_scans_in_order_witness :
  ∃ res : bool,
    EvGuard IDLE 0 1%N speed_6_0 true = EvGuard IDLE 0 1%N speed_6_0 res ∧
    0 < length (transitions variant_idle) ∧
    (res = true →
     1 = length (guards_of [EvGuard IDLE 0 1%N speed_6_0 true;
                            EvEnter WALKING 2%N (Some WALKING)])).
Proof.
  apply (update_scans_in_order variant_machine [] speed_6_0 IDLE variant_idle
           _ _ _ 0 _ eq_refl eq_refl eq_refl variant_update).
  reflexivity.
Defined.
